(** * TicketBookingForm: the validation schema of the booking form

    The one piece of logic in [TicketBookingForm.jsx] is the zod [schema]
    (lines 9-19) that [useForm] runs through [zodResolver(schema)] (line 28)
    on every submit.  This file embeds that schema together with the parts
    of zod 3 and of [@hookform/resolvers/zod] that it exercises:

    - JavaScript values, as far as zod's [getParsedType] tells them apart;
    - regular expressions, matched by derivatives, and the addresses
      the pattern behind [.email()] accepts in zod 3.23;
    - zod's issues, error maps, parse context and the [_parse] method of
      the seven schema classes the form uses;
    - [safeParse], [parseAsync] and the resolver's [parseErrorSchema].

    The parse context's [issues] array and the [_cached] field of the
    object schema are the two mutable cells of the library; both are
    threaded explicitly. *)

From Stdlib Require Import QArith Ascii.
From stdpp Require Import gmap strings list fin_maps pretty.

Set Warnings "-register-all".

(** ** JavaScript values *)

(** A number is NaN, an infinity, or a finite value.  Every finite double
    is a rational, and [<] on doubles is [<] on those rationals, so finite
    values are kept as [Q]. *)
Inductive JsNumber :=
| NaN
| Infinity (negative : bool)
| Num (q : Q).

(** Objects that are neither plain objects, arrays nor dates; zod only
    names their kind. *)
Inductive Exotic := XBigInt | XSymbol | XFunction | XPromise | XMap | XSet.

(** Strings are sequences of code units below 256.  A [Date] is its time
    value: milliseconds since the epoch, or [None] for the NaN time value
    of an "Invalid Date". *)
Inductive JsVal :=
| JUndefined
| JNull
| JBool (b : bool)
| JNum (n : JsNumber)
| JStr (s : string)
| JDate (time : option Z)
| JArray (items : list JsVal)
| JObject (props : gmap string JsVal)
| JExotic (kind : Exotic).

Module Js.

(** [a < b] on numbers: false as soon as one side is NaN. *)
Definition lt (a b : JsNumber) : bool :=
  match a, b with
  | NaN, _ | _, NaN => false
  | Infinity true, Infinity true => false
  | Infinity true, _ => true
  | _, Infinity true => false
  | Infinity false, _ => false
  | _, Infinity false => true
  | Num x, Num y => negb (Qle_bool y x)
  end.

(** [a <= b] on numbers. *)
Definition le (a b : JsNumber) : bool :=
  match a, b with
  | NaN, _ | _, NaN => false
  | Infinity true, _ => true
  | _, Infinity true => false
  | _, Infinity false => true
  | Infinity false, _ => false
  | Num x, Num y => Qle_bool x y
  end.

Definition of_Z (z : Z) : JsNumber := Num (inject_Z z).

(** [isNaN(x)] for a number. *)
Definition isNaN (n : JsNumber) : bool :=
  match n with NaN => true | _ => false end.

(** [Date.prototype.getTime], which is what [ToNumber] gives for a date. *)
Definition getTime (time : option Z) : JsNumber :=
  match time with
  | Some ms => of_Z ms
  | None => NaN
  end.

(** [obj[key]] on a plain object: [undefined] for a missing property. *)
Definition get (props : gmap string JsVal) (key : string) : JsVal :=
  default JUndefined (props !! key).

(** [key in obj]. *)
Definition has (props : gmap string JsVal) (key : string) : bool :=
  bool_decide (is_Some (props !! key)).

(** [Array.prototype.includes] on an array of strings
    ([indexOf(x) !== -1]). *)
Definition includes (xs : list string) (x : string) : bool :=
  existsb (String.eqb x) xs.

(** [Array.prototype.join] on an array of strings. *)
Fixpoint join (sep : string) (parts : list string) : string :=
  match parts with
  | [] => ""
  | [p] => p
  | p :: rest => p +:+ sep +:+ join sep rest
  end.

(** [String.prototype.split] on a separator of one character. *)
Fixpoint split (sep : ascii) (s : string) : list string :=
  match s with
  | EmptyString => [""]
  | String c rest =>
      if Ascii.eqb c sep then "" :: split sep rest
      else match split sep rest with
           | part :: parts => String c part :: parts
           | [] => [String c ""]
           end
  end.

End Js.

(** ** Regular expressions

    Patterns anchored at both ends, so that [test] is a match of the whole
    input.  [And] and [Not] stand for the negative look-aheads at the start
    of an anchored pattern. *)
Module RegExp.

Inductive t :=
| Never
| Empty
| Class (p : ascii → bool)
| Seq (r1 r2 : t)
| Alt (r1 r2 : t)
| Star (r : t)
| And (r1 r2 : t)
| Not (r : t).

Fixpoint nullable (r : t) : bool :=
  match r with
  | Never => false
  | Empty => true
  | Class _ => false
  | Seq r1 r2 => nullable r1 && nullable r2
  | Alt r1 r2 => nullable r1 || nullable r2
  | Star _ => true
  | And r1 r2 => nullable r1 && nullable r2
  | Not r => negb (nullable r)
  end.

Fixpoint derivative (c : ascii) (r : t) : t :=
  match r with
  | Never | Empty => Never
  | Class p => if p c then Empty else Never
  | Seq r1 r2 =>
      if nullable r1
      then Alt (Seq (derivative c r1) r2) (derivative c r2)
      else Seq (derivative c r1) r2
  | Alt r1 r2 => Alt (derivative c r1) (derivative c r2)
  | Star r => Seq (derivative c r) (Star r)
  | And r1 r2 => And (derivative c r1) (derivative c r2)
  | Not r => Not (derivative c r)
  end.

(** [/^r$/.test(s)] *)
Fixpoint test (r : t) (s : string) : bool :=
  match s with
  | EmptyString => nullable r
  | String c s' => test (derivative c r) s'
  end.

(** [r{n}] *)
Fixpoint times (n : nat) (r : t) : t :=
  match n with
  | O => Empty
  | S n' => Seq r (times n' r)
  end.

(** [r+] and [r{n,}] *)
Definition plus (r : t) : t := Seq r (Star r).
Definition at_least (n : nat) (r : t) : t := Seq (times n r) (Star r).

(** [[lo-hi]], a single character, [\d], [.] *)
Definition range (lo hi : ascii) : t :=
  Class (λ c, (nat_of_ascii lo <=? nat_of_ascii c)%nat
              && (nat_of_ascii c <=? nat_of_ascii hi)%nat).
Definition chr (a : ascii) : t := Class (Ascii.eqb a).
Definition is_digit (c : ascii) : bool :=
  (48 <=? nat_of_ascii c)%nat && (nat_of_ascii c <=? 57)%nat.
Definition digit : t := Class is_digit.
Definition dot : t :=
  Class (λ c, negb (Ascii.eqb c "010"%char || Ascii.eqb c "013"%char)).

Fixpoint alts (rs : list t) : t :=
  match rs with
  | [] => Never
  | [r] => r
  | r :: rest => Alt r (alts rest)
  end.

(** The language of a pattern: the strings it matches from end to end. *)
Fixpoint matches (r : t) (s : string) : Prop :=
  match r with
  | Never => False
  | Empty => s = ""
  | Class p => ∃ c, s = String c "" ∧ p c = true
  | Seq r1 r2 => ∃ s1 s2, s = s1 +:+ s2 ∧ matches r1 s1 ∧ matches r2 s2
  | Alt r1 r2 => matches r1 s ∨ matches r2 s
  | Star r =>
      ∃ parts, s = foldr String.append "" parts ∧ Forall (matches r) parts
  | And r1 r2 => matches r1 s ∧ matches r2 s
  | Not r => ¬ matches r s
  end.

End RegExp.

(** ** zod: parsed types, issues and error maps *)

(** [ZodParsedType]; each member is its own name as a string. *)
Inductive ZodParsedType :=
| ZPT_string | ZPT_nan | ZPT_number | ZPT_boolean | ZPT_date | ZPT_bigint
| ZPT_symbol | ZPT_function | ZPT_undefined | ZPT_null | ZPT_array
| ZPT_object | ZPT_promise | ZPT_map | ZPT_set.

Definition ZodParsedType_name (t : ZodParsedType) : string :=
  match t with
  | ZPT_string => "string" | ZPT_nan => "nan" | ZPT_number => "number"
  | ZPT_boolean => "boolean" | ZPT_date => "date" | ZPT_bigint => "bigint"
  | ZPT_symbol => "symbol" | ZPT_function => "function"
  | ZPT_undefined => "undefined" | ZPT_null => "null" | ZPT_array => "array"
  | ZPT_object => "object" | ZPT_promise => "promise" | ZPT_map => "map"
  | ZPT_set => "set"
  end.

Definition getParsedType (data : JsVal) : ZodParsedType :=
  match data with
  | JUndefined => ZPT_undefined
  | JStr _ => ZPT_string
  | JNum n => if Js.isNaN n then ZPT_nan else ZPT_number
  | JBool _ => ZPT_boolean
  | JExotic XFunction => ZPT_function
  | JExotic XBigInt => ZPT_bigint
  | JExotic XSymbol => ZPT_symbol
  | JArray _ => ZPT_array
  | JNull => ZPT_null
  | JExotic XPromise => ZPT_promise
  | JExotic XMap => ZPT_map
  | JExotic XSet => ZPT_set
  | JDate _ => ZPT_date
  | JObject _ => ZPT_object
  end.

(** [getParsedType] takes an object whose [then] and [catch] are both
    functions for a promise, whatever else it holds.  [JObject] stands
    for the objects it classes as objects; a JavaScript object with the
    properties [props] is the value [object_value props]. *)
Definition is_function (v : JsVal) : bool :=
  match v with
  | JExotic XFunction => true
  | _ => false
  end.

Definition thenable (props : gmap string JsVal) : bool :=
  is_function (Js.get props "then") && is_function (Js.get props "catch").

Definition object_value (props : gmap string JsVal) : JsVal :=
  if thenable props then JExotic XPromise else JObject props.

Inductive ZodIssueCode :=
| invalid_type | invalid_enum_value | invalid_date | invalid_string
| too_small | custom.

(** What a schema hands to [addIssueToContext], less the optional message. *)
Inductive IssueData :=
| InvalidType (expected : string) (received : ZodParsedType)
| InvalidEnumValue (options : list string) (received : string)
| InvalidDate
| InvalidString (validation : string)
| TooSmall (type : string) (minimum : Z) (inclusive exact : bool)
| Custom.

Definition IssueData_code (d : IssueData) : ZodIssueCode :=
  match d with
  | InvalidType _ _ => invalid_type
  | InvalidEnumValue _ _ => invalid_enum_value
  | InvalidDate => invalid_date
  | InvalidString _ => invalid_string
  | TooSmall _ _ _ _ => too_small
  | Custom => custom
  end.

(** An issue as the resolver reads it. *)
Record ZodIssue := {
  issue_code : ZodIssueCode;
  issue_path : list string;
  issue_message : string
}.

(** [util.joinValues] *)
Definition joinValues (values : list string) : string :=
  Js.join " | " (map (λ val, "'" +:+ val +:+ "'") values).

(** An error map receives the issue, the data under validation and the
    message of the maps below it. *)
Definition ZodErrorMap : Type := IssueData → JsVal → string → string.

(** The [en] locale, the default map. *)
Definition defaultErrorMap : ZodErrorMap := λ issue _ _,
  match issue with
  | InvalidType expected received =>
      match received with
      | ZPT_undefined => "Required"
      | _ => "Expected " +:+ expected +:+ ", received "
               +:+ ZodParsedType_name received
      end
  | InvalidEnumValue options received =>
      "Invalid enum value. Expected " +:+ joinValues options
        +:+ ", received '" +:+ received +:+ "'"
  | InvalidDate => "Invalid date"
  | InvalidString validation =>
      if String.eqb validation "regex" then "Invalid"
      else "Invalid " +:+ validation
  | TooSmall type minimum inclusive exact =>
      if String.eqb type "string" then
        "String must contain "
          +:+ (if exact then "exactly" else if inclusive then "at least"
              else "over")
          +:+ " " +:+ pretty minimum +:+ " character(s)"
      else
        "Number must be "
          +:+ (if exact then "exactly equal to "
              else if inclusive then "greater than or equal to "
              else "greater than ")
          +:+ pretty minimum
  | Custom => "Invalid input"
  end.

(** The second argument of a schema constructor.  The library expects an
    object of options; a caller may still hand it a primitive string, on
    which every option property reads as [undefined]. *)
Inductive RawCreateParams :=
| params_undefined
| params_string (s : string)
| params_object (invalid_type_error required_error : option string).

Definition customMap (invalid_type_error required_error : option string)
  : ZodErrorMap := λ iss data defaultError,
  match iss with
  | InvalidType _ _ =>
      match data with
      | JUndefined => default defaultError required_error
      | _ => default defaultError invalid_type_error
      end
  | _ => defaultError
  end.

Definition processCreateParams (params : RawCreateParams)
  : option ZodErrorMap :=
  match params with
  | params_undefined => None
  | params_string "" => None
  | params_string _ => Some (customMap None None)
  | params_object invalid_type_error required_error =>
      Some (customMap invalid_type_error required_error)
  end.

(** ** zod: the parse context *)

Record ParseInput := { data : JsVal; input_path : list string }.

Record ParseContext := {
  ctx_data : JsVal;
  ctx_path : list string;
  schemaErrorMap : option ZodErrorMap
}.

(** [makeIssue]: a message of the issue's own wins; otherwise the maps run
    from the default one up to the schema's. *)
Definition makeIssue (ctx : ParseContext) (issueData : IssueData)
    (issue_message : option string) : ZodIssue :=
  let errorMessage :=
    let m := defaultErrorMap issueData (ctx_data ctx) "" in
    match schemaErrorMap ctx with
    | Some map' => map' issueData (ctx_data ctx) m
    | None => m
    end in
  {| issue_code := IssueData_code issueData;
     issue_path := ctx_path ctx;
     issue_message := default errorMessage issue_message |}.

Inductive JsError :=
| ZodError (issues : list ZodIssue)
| TypeError (msg : string)
| Error (msg : string).

(** How a call ends. *)
Inductive Completion (A : Type) :=
| Normal (a : A)
| Throw (e : JsError).
Arguments Normal {A} a.
Arguments Throw {A} e.

(** Computations over a store [S] that may throw. *)
Definition Exec (S A : Type) : Type := S → Completion A * S.

Definition ret {S A} (a : A) : Exec S A := λ st, (Normal a, st).

Definition bind {S A B} (m : Exec S A) (k : A → Exec S B) : Exec S B :=
  λ st, match m st with
        | (Normal a, st') => k a st'
        | (Throw e, st') => (Throw e, st')
        end.

Definition throw {S A} (e : JsError) : Exec S A := λ st, (Throw e, st).

Declare Scope exec_scope.
Delimit Scope exec_scope with exec.
Notation "'let*' x ':=' m 'in' k" := (bind m (λ x, k))
  (at level 10, x name, m at level 100, k at level 200) : exec_scope.
Local Open Scope exec_scope.

(** [for (const x of xs) body], with the loop's local variables in [acc]. *)
Fixpoint for_of {S A B} (xs : list A) (body : A → B → Exec S B) (acc : B)
  : Exec S B :=
  match xs with
  | [] => ret acc
  | x :: xs' => let* acc' := body x acc in for_of xs' body acc'
  end.

(** The store of a parse: the [issues] array of [ctx.common], and the
    [_cached] field of the object schema, which lives as long as the
    schema does. *)
Record ParseState := {
  issues : list ZodIssue;
  _cached : option (list string)
}.

Definition Parse (A : Type) : Type := Exec ParseState A.

Definition addIssueToContext (ctx : ParseContext) (issueData : IssueData)
    (issue_message : option string) : Parse unit :=
  λ st, (Normal (),
         {| issues := issues st ++ [makeIssue ctx issueData issue_message];
            _cached := _cached st |}).

Inductive ParseStatus := valid | dirty | aborted.

Record SyncParseReturnType := {
  status : ParseStatus;
  value : JsVal
}.

Definition INVALID : SyncParseReturnType :=
  {| status := aborted; value := JUndefined |}.
Definition OK (v : JsVal) : SyncParseReturnType :=
  {| status := valid; value := v |}.

Definition ParseStatus_dirty (s : ParseStatus) : ParseStatus :=
  match s with valid => dirty | s => s end.

(** ** zod: schemas

    A schema object is its class and its [_def]. *)

Inductive ZodStringCheck :=
| string_min (value : Z) (message : option string)
| string_email (message : option string)
| string_regex (regex : RegExp.t) (message : option string).

Inductive ZodNumberCheck :=
| number_min (value : Z) (inclusive : bool) (message : option string).

Inductive ZodType :=
| ZodString (checks : list ZodStringCheck)
| ZodNumber (checks : list ZodNumberCheck)
| ZodDate
| ZodEnum (values : list string) (errorMap : option ZodErrorMap)
| ZodEffects (schema : ZodType) (refinement : JsVal → bool)
    (message : option string)
| ZodOptional (innerType : ZodType)
| ZodObject (shape : list (string * ZodType)).

(** The constructors and methods of the [z] namespace that the form calls.
    A method is found through the receiver's class; the form calls each
    one on a class that has it, and on any other class the receiver is
    returned as it is. *)
Module z.

Definition number (_ : unit) : ZodType := ZodNumber [].
Definition date (_ : unit) : ZodType := ZodDate.
Definition enum (values : list string) (params : RawCreateParams) : ZodType :=
  ZodEnum values (processCreateParams params).
Definition object (shape : list (string * ZodType)) : ZodType :=
  ZodObject shape.

(** [ZodString.min] and [ZodNumber.min] (which is [gte]: inclusive). *)
Definition min (value : Z) (message : string) (this : ZodType) : ZodType :=
  match this with
  | ZodString checks => ZodString (checks ++ [string_min value (Some message)])
  | ZodNumber checks =>
      ZodNumber (checks ++ [number_min value true (Some message)])
  | _ => this
  end.

Definition email (message : string) (this : ZodType) : ZodType :=
  match this with
  | ZodString checks => ZodString (checks ++ [string_email (Some message)])
  | _ => this
  end.

Definition regex (re : RegExp.t) (message : string) (this : ZodType)
  : ZodType :=
  match this with
  | ZodString checks => ZodString (checks ++ [string_regex re (Some message)])
  | _ => this
  end.

Definition refine (check : JsVal → bool) (message : string) (this : ZodType)
  : ZodType :=
  ZodEffects this check (Some message).

Definition optional (this : ZodType) : ZodType := ZodOptional this.

Definition string (_ : unit) : ZodType := ZodString [].

End z.

Notation "this |> method" := (method this)
  (at level 45, left associativity, only parsing).

(** ** The form's schema (TicketBookingForm.jsx, lines 9-19) *)

(** [(val) => val instanceof Date && !isNaN(val)] (lines 14 and 15).
    [&&] reaches [isNaN] only for a [Date], whose number value is its time
    value. *)
Definition is_valid_Date (val : JsVal) : bool :=
  match val with
  | JDate time => negb (Js.isNaN (Js.getTime time))
  | _ => false
  end.

(** The pattern of line 12, [/^\d{10}$/], is [RegExp.times 10
    RegExp.digit]: it is anchored at both ends and has no flags. *)
Definition schema : ZodType :=
  z.object [
    ("name", z.string () |> z.min 1 "Name is required");
    ("email", z.string () |> z.email "Invalid email address");
    ("phone", z.string ()
       |> z.regex (RegExp.times 10 RegExp.digit)
            "Phone number must be 10 digits");
    ("tickets", z.number () |> z.min 1 "At least one ticket is required");
    ("date", z.date () |> z.refine is_valid_Date "Booking date is required");
    ("time", z.date ()
       |> z.refine is_valid_Date "Show/travel time is required");
    ("payment", z.enum ["Card"; "UPI"; "Net Banking"; "Wallet"]
       (params_string "Please select a payment option"));
    ("seat", z.enum ["Window"; "Aisle"; "Center"]
       (params_string "Please select a seat preference"));
    ("specialRequests", z.string () |> z.optional)
  ].

(** ** The form (TicketBookingForm.jsx, lines 21-188) *)

(** As much of dayjs as the form calls. *)
Module dayjs.

(** A Dayjs object is the [Date] it wraps, and a [Date] is its time
    value. *)
Record t := { d : option Z }.

(** What the form hands to [dayjs]: nothing (line 31), or the value of a
    date field (line 99), which is [undefined], [null] or a [Date]. *)
Inductive ConfigType :=
| nothing
| null
| Date (time : option Z).

(** The value of a date field as an argument of [dayjs]; [None] for the
    kinds of value that the form never stores in such a field. *)
Definition config (value : JsVal) : option ConfigType :=
  match value with
  | JUndefined => Some nothing
  | JNull => Some null
  | JDate time => Some (Date time)
  | _ => None
  end.

(** [dayjs(date)], with the clock at [now]: [null] gives an invalid
    date, no argument gives the present, and a [Date] is copied. *)
Definition create (now : Z) (date : ConfigType) : t :=
  match date with
  | null => {| d := None |}
  | nothing => {| d := Some now |}
  | Date time => {| d := time |}
  end.

Definition toDate (this : t) : JsVal := JDate (d this).

Definition isValid (this : t) : bool := negb (Js.isNaN (Js.getTime (d this))).

End dayjs.

(** [defaultValues] (lines 29-33); each [dayjs()] reads the clock. *)
Definition defaultValues (now1 now2 : Z) : gmap string JsVal :=
  list_to_map [
    ("tickets", JNum (Js.of_Z 1));
    ("date", dayjs.toDate (dayjs.create now1 dayjs.nothing));
    ("time", dayjs.toDate (dayjs.create now2 dayjs.nothing))
  ].

(** [[...Array(n).keys()]] *)
Definition Array_keys (n : nat) : list Z := map Z.of_nat (seq 0 n).

(** An [<option>] of a [<select>]; its [value] attribute is text. *)
Record SelectOption := {
  option_key : Z;
  option_value : string;
  option_label : string
}.

(** The options of the tickets select (lines 82-86). *)
Definition ticket_options : list SelectOption :=
  map (λ i, {| option_key := i + 1;
               option_value := pretty (i + 1)%Z;
               option_label := pretty (i + 1)%Z +:+ " Ticket(s)" |})
    (Array_keys 10).

(** The numbers the tickets select offers. *)
Definition ticket_numbers : list Z := map option_key ticket_options.

(** The radio buttons of the payment group (line 141) and the options of
    the seat select (lines 162-164). *)
Definition payment_options : list string :=
  ["Card"; "UPI"; "Net Banking"; "Wallet"].
Definition seat_options : list string := ["Window"; "Aisle"; "Center"].

(** [(value) => field.onChange(value ? value.toDate() : null)] (lines 100
    and 123): what a change of the picker stores in the field.  The
    picker hands in a Dayjs object, which is truthy, or [null]. *)
Definition picker_onChange (value : option dayjs.t) : JsVal :=
  match value with
  | Some picked => dayjs.toDate picked
  | None => JNull
  end.

(** The fields under which the form renders [errors.<field>?.message]
    (lines 53, 63, 73, 88, 111, 134, 153 and 166). *)
Definition message_slots : list string :=
  ["name"; "email"; "phone"; "tickets"; "date"; "time"; "payment"; "seat"].

(** The pattern the examples are run on, that of zod 3.23: no leading
    dot and no two dots in a row; a local part of letters, digits and
    [_ ' + - .] that ends in a letter, a digit or one of [_ + -]; an [@];
    one or more labels, each a letter or digit, then letters, digits and
    hyphens, then a dot; and two or more letters.  Letters in either
    case. *)
Definition emailRegex_3_23 (s : string) : bool :=
  let letter := RegExp.Alt (RegExp.range "A" "Z") (RegExp.range "a" "z") in
  let alnum := RegExp.Alt letter RegExp.digit in
  let any := RegExp.Star RegExp.dot in
  let local_char :=
    RegExp.alts [alnum; RegExp.chr "_"; RegExp.chr "'"; RegExp.chr "+";
                 RegExp.chr "-"; RegExp.chr "."] in
  let local_last :=
    RegExp.alts [alnum; RegExp.chr "_"; RegExp.chr "+"; RegExp.chr "-"] in
  let label :=
    RegExp.Seq alnum
      (RegExp.Seq (RegExp.Star (RegExp.Alt alnum (RegExp.chr "-")))
         (RegExp.chr ".")) in
  let body :=
    RegExp.Seq (RegExp.Star local_char)
      (RegExp.Seq local_last
         (RegExp.Seq (RegExp.chr "@")
            (RegExp.Seq (RegExp.plus label) (RegExp.at_least 2 letter)))) in
  let two_dots := RegExp.Seq (RegExp.chr ".") (RegExp.chr ".") in
  RegExp.test
    (RegExp.And (RegExp.Not (RegExp.Seq (RegExp.chr ".") any))
       (RegExp.And (RegExp.Not (RegExp.Seq any (RegExp.Seq two_dots any)))
          body))
    s.

(** ** Addresses, as the specification and as zod have them *)

(** Letters in either case, and letters or digits. *)
Definition is_letter (c : ascii) : bool :=
  let n := nat_of_ascii c in
  ((65 <=? n)%nat && (n <=? 90)%nat) || ((97 <=? n)%nat && (n <=? 122)%nat).

Definition is_alnum (c : ascii) : bool := is_letter c || RegExp.is_digit c.

(** [chars.includes(c)] *)
Definition one_of (chars : string) (c : ascii) : bool :=
  existsb (Ascii.eqb c) (String.list_ascii_of_string chars).

(** Every character of a string passes a test. *)
Definition every (p : ascii → bool) (s : string) : bool :=
  forallb p (String.list_ascii_of_string s).

(** [c !== a] *)
Definition differs (a c : ascii) : bool := negb (Ascii.eqb c a).

(** [atext] of RFC 5322: a letter, a digit, or one of the printable
    characters that are not specials. *)
Definition is_atext (c : ascii) : bool :=
  is_alnum c || one_of "!#$%&'*+-/=?^_`{|}~" c.

(** [dot-atom] of RFC 5322: runs of [atext] separated by single dots. *)
Definition atom (s : string) : bool :=
  negb (String.eqb s "") && every is_atext s.

Definition dot_atom (s : string) : bool := forallb atom (Js.split "." s).

(** The "RFC-shaped address" of §4.1, the "standard address syntax" of
    §3: the [addr-spec] of RFC 5322, a [dot-atom] on either side of one
    at sign. *)
Definition rfc_shaped (s : string) : bool :=
  match Js.split "@" s with
  | [local; domain] => dot_atom local && dot_atom domain
  | _ => false
  end.

(** [s.startsWith(".")], and [!s.includes("..")]. *)
Definition starts_with_dot (s : string) : bool :=
  match s with
  | String c _ => Ascii.eqb c "."
  | EmptyString => false
  end.

Fixpoint no_two_dots (s : string) : bool :=
  match s with
  | String c rest =>
      negb (Ascii.eqb c "." && starts_with_dot rest) && no_two_dots rest
  | EmptyString => true
  end.

(** A local part: letters, digits and [_ ' + - .], the last of them
    neither a dot nor an apostrophe. *)
Fixpoint local_part (s : string) : bool :=
  match s with
  | EmptyString => false
  | String c EmptyString => is_alnum c || one_of "_+-" c
  | String c rest => (is_alnum c || one_of "_'+-." c) && local_part rest
  end.

(** A label of a domain: a letter or digit, then letters, digits and
    hyphens. *)
Definition domain_label (s : string) : bool :=
  match s with
  | String c rest =>
      is_alnum c && every (λ c, is_alnum c || Ascii.eqb c "-") rest
  | EmptyString => false
  end.

(** The last label: two or more letters. *)
Definition top_level (s : string) : bool :=
  (2 <=? String.length s)%nat && every is_letter s.

(** One or more labels, then the last one. *)
Fixpoint labels (parts : list string) : bool :=
  match parts with
  | [] | [_] => false
  | [label; top] => domain_label label && top_level top
  | label :: rest => domain_label label && labels rest
  end.

(** The narrower syntax of zod 3.23, said without a pattern: no leading
    dot and no two dots in a row; a local part, one at sign, and a domain
    of one or more labels and a last label of two or more letters. *)
Definition narrow_address (s : string) : bool :=
  negb (starts_with_dot s) && no_two_dots s
  && match Js.split "@" s with
     | [local; domain] => local_part local && labels (Js.split "." domain)
     | _ => false
     end.

(** The parts of the pattern of zod 3.23, by name. *)
Definition re_letter : RegExp.t :=
  RegExp.Alt (RegExp.range "A" "Z") (RegExp.range "a" "z").
Definition re_alnum : RegExp.t := RegExp.Alt re_letter RegExp.digit.
Definition re_local_char : RegExp.t :=
  RegExp.alts [re_alnum; RegExp.chr "_"; RegExp.chr "'"; RegExp.chr "+";
               RegExp.chr "-"; RegExp.chr "."].
Definition re_local_last : RegExp.t :=
  RegExp.alts [re_alnum; RegExp.chr "_"; RegExp.chr "+"; RegExp.chr "-"].
Definition re_label_char : RegExp.t := RegExp.Alt re_alnum (RegExp.chr "-").
Definition re_label : RegExp.t :=
  RegExp.Seq re_alnum
    (RegExp.Seq (RegExp.Star re_label_char) (RegExp.chr ".")).
Definition re_domain : RegExp.t :=
  RegExp.Seq (RegExp.plus re_label) (RegExp.at_least 2 re_letter).

(** ** The fields of a booking *)

(** The nine fields of a BookingInput (§3). *)
Definition booking_fields : list string :=
  ["name"; "email"; "phone"; "tickets"; "date"; "time"; "payment"; "seat";
   "specialRequests"].

(** The normalized input: the input less whatever is not one of the nine
    fields. *)
Definition normalized (input : gmap string JsVal) : gmap string JsVal :=
  filter (λ kv, kv.1 ∈ booking_fields) input.

(** ** zod: the [_parse] methods *)

Section Validation.

(** The pattern behind [.email()] is private to the library and was
    revised from release to release; the development is parametric in the
    test it gives. *)
Variable emailRegex : string → bool.

Definition ZodString_parse (checks : list ZodStringCheck) (input : ParseInput)
  : Parse SyncParseReturnType :=
  let ctx := {| ctx_data := data input; ctx_path := input_path input;
                schemaErrorMap := None |} in
  match data input with
  | JStr s =>
      let* status := for_of checks (λ check status,
        match check with
        | string_min value message =>
            if (Z.of_nat (String.length s) <? value)%Z then
              let* _ := addIssueToContext ctx
                          (TooSmall "string" value true false) message in
              ret (ParseStatus_dirty status)
            else ret status
        | string_email message =>
            if negb (emailRegex s) then
              let* _ := addIssueToContext ctx (InvalidString "email")
                          message in
              ret (ParseStatus_dirty status)
            else ret status
        | string_regex regex message =>
            if negb (RegExp.test regex s) then
              let* _ := addIssueToContext ctx (InvalidString "regex")
                          message in
              ret (ParseStatus_dirty status)
            else ret status
        end) valid in
      ret {| status := status; value := JStr s |}
  | _ =>
      let* _ := addIssueToContext ctx
                  (InvalidType "string" (getParsedType (data input))) None in
      ret INVALID
  end.

Definition ZodNumber_parse (checks : list ZodNumberCheck) (input : ParseInput)
  : Parse SyncParseReturnType :=
  let ctx := {| ctx_data := data input; ctx_path := input_path input;
                schemaErrorMap := None |} in
  let wrong_type :=
    let* _ := addIssueToContext ctx
                (InvalidType "number" (getParsedType (data input))) None in
    ret INVALID in
  match data input with
  | JNum n =>
      if Js.isNaN n then wrong_type else
      let* status := for_of checks (λ check status,
        match check with
        | number_min value inclusive message =>
            let tooSmall :=
              if inclusive then Js.lt n (Js.of_Z value)
              else Js.le n (Js.of_Z value) in
            if tooSmall then
              let* _ := addIssueToContext ctx
                          (TooSmall "number" value inclusive false) message in
              ret (ParseStatus_dirty status)
            else ret status
        end) valid in
      ret {| status := status; value := JNum n |}
  | _ => wrong_type
  end.

Definition ZodDate_parse (input : ParseInput) : Parse SyncParseReturnType :=
  let ctx := {| ctx_data := data input; ctx_path := input_path input;
                schemaErrorMap := None |} in
  match data input with
  | JDate time =>
      if Js.isNaN (Js.getTime time) then
        let* _ := addIssueToContext ctx InvalidDate None in
        ret INVALID
      else ret (OK (JDate time))
  | _ =>
      let* _ := addIssueToContext ctx
                  (InvalidType "date" (getParsedType (data input))) None in
      ret INVALID
  end.

Definition ZodEnum_parse (values : list string) (errorMap : option ZodErrorMap)
    (input : ParseInput) : Parse SyncParseReturnType :=
  let ctx := {| ctx_data := data input; ctx_path := input_path input;
                schemaErrorMap := errorMap |} in
  match data input with
  | JStr s =>
      if negb (Js.includes values s) then
        let* _ := addIssueToContext ctx (InvalidEnumValue values s) None in
        ret INVALID
      else ret (OK (JStr s))
  | _ =>
      let* _ := addIssueToContext ctx
                  (InvalidType (joinValues values)
                     (getParsedType (data input))) None in
      ret INVALID
  end.

(** A refinement runs only on what its inner schema did not abort. *)
Definition ZodEffects_parse (schema_parse : ParseInput → Parse SyncParseReturnType)
    (refinement : JsVal → bool) (message : option string)
    (input : ParseInput) : Parse SyncParseReturnType :=
  let ctx := {| ctx_data := data input; ctx_path := input_path input;
                schemaErrorMap := None |} in
  let* inner := schema_parse input in
  match status inner with
  | aborted => ret INVALID
  | inner_status =>
      if refinement (value inner) then
        ret {| status := inner_status; value := value inner |}
      else
        let* _ := addIssueToContext ctx Custom message in
        ret {| status := ParseStatus_dirty inner_status;
               value := value inner |}
  end.

Definition ZodOptional_parse
    (innerType_parse : ParseInput → Parse SyncParseReturnType)
    (input : ParseInput) : Parse SyncParseReturnType :=
  match data input with
  | JUndefined => ret (OK JUndefined)
  | _ => innerType_parse input
  end.

(** [_getCached]: the shape's keys, computed on the first parse and kept
    on the schema object. *)
Definition _getCached (shape_keys : list string) : Parse (list string) :=
  λ st, match _cached st with
        | Some keys => (Normal keys, st)
        | None => (Normal shape_keys,
                   {| issues := issues st; _cached := Some shape_keys |})
        end.

Record ObjectPair := {
  pair_key : string;
  pair_value : SyncParseReturnType;
  alwaysSet : bool
}.

(** [ParseStatus.mergeObjectSync]; keys are always valid here. *)
Fixpoint mergeObjectSync (merged : ParseStatus) (pairs : list ObjectPair)
    (finalObject : gmap string JsVal) : SyncParseReturnType :=
  match pairs with
  | [] => {| status := merged; value := JObject finalObject |}
  | entry :: rest =>
      match status (pair_value entry) with
      | aborted => INVALID
      | value_status =>
          let merged' :=
            match value_status with
            | dirty => ParseStatus_dirty merged
            | _ => merged
            end in
          let keep :=
            negb (String.eqb (pair_key entry) "__proto__")
            && (negb (match value (pair_value entry) with
                      | JUndefined => true | _ => false end)
                || alwaysSet entry) in
          mergeObjectSync merged' rest
            (if keep
             then <[pair_key entry := value (pair_value entry)]> finalObject
             else finalObject)
      end
  end.

(** The object schema of the form: unknown keys are stripped, there is no
    catch-all.  [shape_get key] is [shape[key]._parse], and calling
    [_parse] on a missing property is a [TypeError]. *)
Definition ZodObject_parse (shape_keys : list string)
    (shape_get : string → option (ParseInput → Parse SyncParseReturnType))
    (input : ParseInput) : Parse SyncParseReturnType :=
  let ctx := {| ctx_data := data input; ctx_path := input_path input;
                schemaErrorMap := None |} in
  match data input with
  | JObject props =>
      let* shapeKeys := _getCached shape_keys in
      let* pairs := for_of shapeKeys (λ key pairs,
        match shape_get key with
        | None =>
            throw (TypeError
              "Cannot read properties of undefined (reading '_parse')")
        | Some keyValidator_parse =>
            let* value :=
              keyValidator_parse
                {| data := Js.get props key;
                   input_path := input_path input ++ [key] |} in
            ret (pairs ++ [{| pair_key := key; pair_value := value;
                              alwaysSet := Js.has props key |}])
        end) [] in
      ret (mergeObjectSync valid pairs ∅)
  | _ =>
      let* _ := addIssueToContext ctx
                  (InvalidType "object" (getParsedType (data input))) None in
      ret INVALID
  end.

Fixpoint _parse (this : ZodType) : ParseInput → Parse SyncParseReturnType :=
  match this with
  | ZodString checks => ZodString_parse checks
  | ZodNumber checks => ZodNumber_parse checks
  | ZodDate => ZodDate_parse
  | ZodEnum values errorMap => ZodEnum_parse values errorMap
  | ZodEffects schema refinement message =>
      ZodEffects_parse (_parse schema) refinement message
  | ZodOptional innerType => ZodOptional_parse (_parse innerType)
  | ZodObject shape =>
      ZodObject_parse (map fst shape)
        ((fix shape_get (shape : list (string * ZodType)) (key : string) :=
            match shape with
            | [] => None
            | (k, validator) :: rest =>
                if String.eqb k key then Some (_parse validator)
                else shape_get rest key
            end) shape)
  end.

(** ** zod: [safeParse] and [parse] *)

Inductive SafeParseReturnType :=
| SafeParseSuccess (parsed : JsVal)
| SafeParseError (error : list ZodIssue).

Definition handleResult (ctx_issues : list ZodIssue)
    (result : SyncParseReturnType) : Completion SafeParseReturnType :=
  match status result with
  | valid => Normal (SafeParseSuccess (value result))
  | _ =>
      match ctx_issues with
      | [] => Throw (Error "Validation failed but no issues detected.")
      | _ => Normal (SafeParseError ctx_issues)
      end
  end.

(** Between two calls only the schema object survives, and of it only
    [_cached] changes; every call starts from an empty [issues] array. *)
Definition SchemaState : Type := option (list string).

Definition safeParse (this : ZodType) (input : JsVal)
  : Exec SchemaState SafeParseReturnType :=
  λ cached,
    match _parse this {| data := input; input_path := [] |}
            {| issues := []; _cached := cached |} with
    | (Normal result, st) => (handleResult (issues st) result, _cached st)
    | (Throw e, st) => (Throw e, _cached st)
    end.

(** [parseAsync], which the resolver calls.  Every check of the form's
    schema is synchronous, so the promises of the asynchronous path settle
    in the order of the synchronous one and are left out. *)
Definition parseAsync (this : ZodType) (input : JsVal)
  : Exec SchemaState JsVal :=
  let* result := safeParse this input in
  match result with
  | SafeParseSuccess parsed => ret parsed
  | SafeParseError error => throw (ZodError error)
  end.

(** ** @hookform/resolvers/zod *)

Record FieldError := {
  message : string;
  type : ZodIssueCode
}.

(** [parseErrorSchema] without [criteriaMode: 'all']: the first issue of
    each path wins.  [toNestErrors] then keeps a path of one segment as the
    key it is. *)
Fixpoint parseErrorSchema (zodErrors : list ZodIssue)
    (errors : gmap string FieldError) : gmap string FieldError :=
  match zodErrors with
  | [] => errors
  | error :: rest =>
      let _path := Js.join "." (issue_path error) in
      parseErrorSchema rest
        (match errors !! _path with
         | Some _ => errors
         | None => <[_path := {| message := issue_message error;
                                  type := issue_code error |}]> errors
         end)
  end.

Record ResolverResult := {
  values : JsVal;
  errors : gmap string FieldError
}.

(** [try { data = await schema.parseAsync(values); return {errors: {},
    values: data} } catch (error) { if (isZodError(error)) return {values:
    {}, errors: ...}; throw error }] *)
Definition zodResolver (schema : ZodType) (values : JsVal)
  : Exec SchemaState ResolverResult :=
  λ st,
    match parseAsync schema values st with
    | (Normal parsed, st') =>
        (Normal {| values := parsed; errors := ∅ |}, st')
    | (Throw (ZodError zodErrors), st') =>
        (Normal {| values := JObject ∅;
                   errors := parseErrorSchema zodErrors ∅ |}, st')
    | (Throw error, st') => (Throw error, st')
    end.

(** ** The validator of the form

    [useForm({resolver: zodResolver(schema), ...})], line 28: each submit
    hands the current field values, an object, to the resolver. *)
Definition resolver (values : gmap string JsVal)
  : Exec SchemaState ResolverResult :=
  zodResolver schema (JObject values).

(** The schema object as the module creates it. *)
Definition fresh : SchemaState := None.

(** A first validation, and one that follows earlier submits. *)
Definition validate (values : gmap string JsVal)
  : Completion ResolverResult :=
  (resolver values fresh).1.

(** A first validation of the object with the properties [props]. *)
Definition validate_object (props : gmap string JsVal)
  : Completion ResolverResult :=
  (zodResolver schema (object_value props) fresh).1.

Fixpoint submits (history : list (gmap string JsVal)) (st : SchemaState)
  : SchemaState :=
  match history with
  | [] => st
  | values :: later => submits later (resolver values st).2
  end.

(** ** Vocabulary of the proofs *)

(** A parse only ever appends to the [issues] array. *)
Definition push (new : list ZodIssue) (st : ParseState) : ParseState :=
  {| issues := issues st ++ new; _cached := _cached st |}.

(** [p] returns [a] and appends [new], whatever the store holds. *)
Definition appends {A} (p : Parse A) (a : A) (new : list ZodIssue) : Prop :=
  ∀ st, p st = (Normal a, push new st).

(** What every field schema does: it returns, it only appends, it reports
    exactly when the status it returns is not [valid], it hands back the
    data it was given unless it aborts, and it files its issues under
    the path it was given. *)
Definition reports (p : Parse SyncParseReturnType) (input : ParseInput)
  : Prop :=
  ∃ r new, appends p r new
    ∧ (status r = valid ↔ new = [])
    ∧ (status r ≠ aborted → value r = data input)
    ∧ Forall (λ i, issue_path i = input_path input) new.

(** Schemas with no object schema inside: the fields of the form. *)
Fixpoint object_free (this : ZodType) : bool :=
  match this with
  | ZodEffects schema _ _ => object_free schema
  | ZodOptional innerType => object_free innerType
  | ZodObject _ => false
  | _ => true
  end.

(** What a schema returns and reports on an input, read off a run from an
    empty [issues] array. *)
Definition outcome (this : ZodType) (input : ParseInput)
  : SyncParseReturnType * list ZodIssue :=
  match _parse this input {| issues := []; _cached := None |} with
  | (Normal r, st) => (r, issues st)
  | (Throw _, st) => (INVALID, issues st)
  end.

(** The pair the object schema's loop makes of one key, and the issues
    that key's schema reports. *)
Definition pair_of (sch : string → ZodType) (props : gmap string JsVal)
    (path : list string) (key : string) : ObjectPair :=
  {| pair_key := key;
     pair_value :=
       (outcome (sch key)
          {| data := Js.get props key; input_path := path ++ [key] |}).1;
     alwaysSet := Js.has props key |}.

Definition issues_of (sch : string → ZodType) (props : gmap string JsVal)
    (path : list string) (key : string) : list ZodIssue :=
  (outcome (sch key)
     {| data := Js.get props key; input_path := path ++ [key] |}).2.

(** [shape[key]] *)
Fixpoint shape_lookup (shape : list (string * ZodType)) (key : string)
  : option ZodType :=
  match shape with
  | [] => None
  | (k, validator) :: rest =>
      if String.eqb k key then Some validator else shape_lookup rest key
  end.

Definition shape_of (this : ZodType) : list (string * ZodType) :=
  match this with
  | ZodObject shape => shape
  | _ => []
  end.

(** The names of the form's fields, in the order of the schema. *)
Definition fields : list string := map fst (shape_of schema).

(** The schema of one field of the form. *)
Definition field_schema (key : string) : ZodType :=
  default ZodDate (shape_lookup (shape_of schema) key).

(** What the schema of field [key] makes of the submitted values. *)
Definition field_outcome (values : gmap string JsVal) (key : string)
  : SyncParseReturnType * list ZodIssue :=
  outcome (field_schema key)
    {| data := Js.get values key; input_path := [key] |}.

Definition field_issues (values : gmap string JsVal) (key : string)
  : list ZodIssue :=
  (field_outcome values key).2.

(** The [issues] array once every field has been parsed. *)
Definition all_issues (values : gmap string JsVal) : list ZodIssue :=
  concat (map (field_issues values) fields).

(** The entry the resolver makes of an issue. *)
Definition FieldError_of (issue : ZodIssue) : FieldError :=
  {| message := issue_message issue; type := issue_code issue |}.

(** The submitted values less the properties the schema does not name:
    the normalized input. *)
Definition strip (values : gmap string JsVal) : gmap string JsVal :=
  filter (λ kv, kv.1 ∈ fields) values.

(** What the resolver returns, read off the fields one by one. *)
Definition summary (values : gmap string JsVal) : ResolverResult :=
  match all_issues values with
  | [] => {| values := JObject (strip values); errors := ∅ |}
  | zodErrors =>
      {| values := JObject ∅; errors := parseErrorSchema zodErrors ∅ |}
  end.

(** The message shown under a field (lines 53-166:
    [errors.name?.message]). *)
Definition shown (r : ResolverResult) (key : string) : option string :=
  message <$> errors r !! key.

(** *** What each field reports, by the data it holds *)

Definition issue (code : ZodIssueCode) (key message : string) : ZodIssue :=
  {| issue_code := code; issue_path := [key]; issue_message := message |}.

(** The issue of a value of the wrong kind, with the default message. *)
Definition wrong_type (key expected : string) (d : JsVal) : ZodIssue :=
  issue invalid_type key
    (defaultErrorMap (InvalidType expected (getParsedType d)) d "").

Definition name_issues (d : JsVal) : list ZodIssue :=
  match d with
  | JStr s =>
      if String.eqb s "" then [issue too_small "name" "Name is required"]
      else []
  | _ => [wrong_type "name" "string" d]
  end.

Definition email_issues (d : JsVal) : list ZodIssue :=
  match d with
  | JStr s =>
      if emailRegex s then []
      else [issue invalid_string "email" "Invalid email address"]
  | _ => [wrong_type "email" "string" d]
  end.

Definition phone_issues (d : JsVal) : list ZodIssue :=
  match d with
  | JStr s =>
      if (String.length s =? 10)%nat
         && forallb RegExp.is_digit (String.list_ascii_of_string s)
      then []
      else [issue invalid_string "phone" "Phone number must be 10 digits"]
  | _ => [wrong_type "phone" "string" d]
  end.

Definition tickets_issues (d : JsVal) : list ZodIssue :=
  match d with
  | JNum NaN => [wrong_type "tickets" "number" d]
  | JNum n =>
      if Js.lt n (Js.of_Z 1)
      then [issue too_small "tickets" "At least one ticket is required"]
      else []
  | _ => [wrong_type "tickets" "number" d]
  end.

Definition date_issues (key : string) (d : JsVal) : list ZodIssue :=
  match d with
  | JDate (Some _) => []
  | JDate None => [issue invalid_date key "Invalid date"]
  | _ => [wrong_type key "date" d]
  end.

Definition enum_issues (key : string) (options : list string) (d : JsVal)
  : list ZodIssue :=
  match d with
  | JStr s =>
      if Js.includes options s then []
      else [issue invalid_enum_value key
              (defaultErrorMap (InvalidEnumValue options s) d "")]
  | _ => [wrong_type key (joinValues options) d]
  end.

Definition specialRequests_issues (d : JsVal) : list ZodIssue :=
  match d with
  | JUndefined | JStr _ => []
  | _ => [wrong_type "specialRequests" "string" d]
  end.

Definition expected_issues (key : string) : JsVal → list ZodIssue :=
  if String.eqb key "name" then name_issues
  else if String.eqb key "email" then email_issues
  else if String.eqb key "phone" then phone_issues
  else if String.eqb key "tickets" then tickets_issues
  else if String.eqb key "date" then date_issues "date"
  else if String.eqb key "time" then date_issues "time"
  else if String.eqb key "payment"
       then enum_issues "payment" ["Card"; "UPI"; "Net Banking"; "Wallet"]
  else if String.eqb key "seat"
       then enum_issues "seat" ["Window"; "Aisle"; "Center"]
  else if String.eqb key "specialRequests" then specialRequests_issues
  else λ _, [].

(** *** The rules of the specification (§3 and §4.1), field by field *)

Definition rule_name (v : JsVal) : bool :=
  match v with
  | JStr s => negb (String.eqb s "")
  | _ => false
  end.

Definition rule_email (v : JsVal) : bool :=
  match v with
  | JStr s => emailRegex s
  | _ => false
  end.

Definition rule_phone (v : JsVal) : bool :=
  match v with
  | JStr s =>
      (String.length s =? 10)%nat
      && forallb RegExp.is_digit (String.list_ascii_of_string s)
  | _ => false
  end.

Definition rule_tickets (v : JsVal) : bool :=
  match v with
  | JNum n => Js.le (Js.of_Z 1) n
  | _ => false
  end.

Definition rule_date (v : JsVal) : bool :=
  match v with
  | JDate (Some _) => true
  | _ => false
  end.

Definition rule_payment (v : JsVal) : bool :=
  match v with
  | JStr s => bool_decide (s ∈ ["Card"; "UPI"; "Net Banking"; "Wallet"])
  | _ => false
  end.

Definition rule_seat (v : JsVal) : bool :=
  match v with
  | JStr s => bool_decide (s ∈ ["Window"; "Aisle"; "Center"])
  | _ => false
  end.

(** Optional free text: absent, or a string. *)
Definition rule_specialRequests (v : JsVal) : bool :=
  match v with
  | JUndefined | JStr _ => true
  | _ => false
  end.

Definition rule (key : string) : JsVal → bool :=
  if String.eqb key "name" then rule_name
  else if String.eqb key "email" then rule_email
  else if String.eqb key "phone" then rule_phone
  else if String.eqb key "tickets" then rule_tickets
  else if String.eqb key "date" then rule_date
  else if String.eqb key "time" then rule_date
  else if String.eqb key "payment" then rule_payment
  else if String.eqb key "seat" then rule_seat
  else if String.eqb key "specialRequests" then rule_specialRequests
  else λ _, true.

(** The message §4.1 gives for the rule of a field. *)
Definition rule_message (key : string) : string :=
  if String.eqb key "name" then "Name is required"
  else if String.eqb key "email" then "Invalid email address"
  else if String.eqb key "phone" then "Phone number must be 10 digits"
  else if String.eqb key "tickets" then "At least one ticket is required"
  else if String.eqb key "date" then "Booking date is required"
  else if String.eqb key "time" then "Show/travel time is required"
  else if String.eqb key "payment" then "Please select a payment option"
  else if String.eqb key "seat" then "Please select a seat preference"
  else "".

(** Every field of a BookingInput satisfies its rule. *)
Definition well_formed (values : gmap string JsVal) : bool :=
  rule_name (Js.get values "name")
  && rule_email (Js.get values "email")
  && rule_phone (Js.get values "phone")
  && rule_tickets (Js.get values "tickets")
  && rule_date (Js.get values "date")
  && rule_date (Js.get values "time")
  && rule_payment (Js.get values "payment")
  && rule_seat (Js.get values "seat")
  && rule_specialRequests (Js.get values "specialRequests").

(** The rule of §3 and §4.1 for the address, as the specification words
    it and as narrowed to the syntax of zod 3.23. *)
Definition rule_email_rfc (v : JsVal) : bool :=
  match v with
  | JStr s => rfc_shaped s
  | _ => false
  end.

Definition rule_email_narrow (v : JsVal) : bool :=
  match v with
  | JStr s => narrow_address s
  | _ => false
  end.

(** Every field satisfies its rule of §3, the address being RFC-shaped. *)
Definition satisfies_spec_rules (input : gmap string JsVal) : bool :=
  rule_name (Js.get input "name")
  && rule_email_rfc (Js.get input "email")
  && rule_phone (Js.get input "phone")
  && rule_tickets (Js.get input "tickets")
  && rule_date (Js.get input "date")
  && rule_date (Js.get input "time")
  && rule_payment (Js.get input "payment")
  && rule_seat (Js.get input "seat")
  && rule_specialRequests (Js.get input "specialRequests").

(** The same, the address being of the narrow syntax. *)
Definition satisfies_rules (input : gmap string JsVal) : bool :=
  rule_name (Js.get input "name")
  && rule_email_narrow (Js.get input "email")
  && rule_phone (Js.get input "phone")
  && rule_tickets (Js.get input "tickets")
  && rule_date (Js.get input "date")
  && rule_date (Js.get input "time")
  && rule_payment (Js.get input "payment")
  && rule_seat (Js.get input "seat")
  && rule_specialRequests (Js.get input "specialRequests").

(** The kind of value §3 gives a field whose message §4.1 fixes and the
    schema sets on a check of its own: text, or a number. *)
Definition expected_kind (key : string) : option ZodParsedType :=
  if String.eqb key "name" then Some ZPT_string
  else if String.eqb key "email" then Some ZPT_string
  else if String.eqb key "phone" then Some ZPT_string
  else if String.eqb key "tickets" then Some ZPT_number
  else None.

(** White space, as [String.prototype.trim] sees it below code unit 256. *)
Definition is_whitespace (c : ascii) : bool :=
  let n := nat_of_ascii c in
  ((9 <=? n)%nat && (n <=? 13)%nat) || (n =? 32)%nat || (n =? 160)%nat.

Definition whitespace_only (s : string) : bool :=
  negb (String.eqb s "")
  && forallb is_whitespace (String.list_ascii_of_string s).

(** Every violated field shows the message §4.1 gives for its rule. *)
Definition shows_rule_messages (input : gmap string JsVal)
    (r : ResolverResult) : Prop :=
  ∀ k, k ∈ fields → rule k (Js.get input k) = false →
       shown r k = Some (rule_message k).

(** *** Sample submissions *)

Definition booking : gmap string JsVal :=
  list_to_map [
    ("name", JStr "Asha Rao");
    ("email", JStr "asha@example.com");
    ("phone", JStr "9876543210");
    ("tickets", JNum (Js.of_Z 2));
    ("date", JDate (Some 1735689600000%Z));
    ("time", JDate (Some 1735725600000%Z));
    ("payment", JStr "UPI");
    ("seat", JStr "Window")
  ].

(** No name at all, and an address without an [@]. *)
Definition booking_without_name : gmap string JsVal :=
  <["email" := JStr "not-an-email"]> (delete "name" booking).

(** [tickets: 1.5] *)
Definition booking_for_one_and_a_half : gmap string JsVal :=
  <["tickets" := JNum (Num (3 # 2))]> booking.

(** [payment: "Crypto"], [seat: "Middle"] *)
Definition booking_paid_in_crypto : gmap string JsVal :=
  <["payment" := JStr "Crypto"]> (<["seat" := JStr "Middle"]> booking).

(** [date: null], as the date picker's [onChange] stores a cleared date
    (line 100), and a time that is an Invalid Date. *)
Definition booking_without_date : gmap string JsVal :=
  <["date" := JNull]> (<["time" := JDate None]> booking).

(** An address whose last label is a single letter. *)
Definition booking_from_a_short_domain : gmap string JsVal :=
  <["email" := JStr "a@b.c"]> booking.

(** *** Submitting the form (lines 36-38 and 43) *)

(** What a page keeps between submits: the schema object, the errors
    of the form state, and the console. *)
Record Page := {
  page_schema : SchemaState;
  formState_errors : gmap string FieldError;
  console : list (list JsVal)
}.

(** [console.log(...args)] *)
Definition console_log (args : list JsVal) : Exec Page unit :=
  λ page, (Normal (),
           {| page_schema := page_schema page;
              formState_errors := formState_errors page;
              console := console page ++ [args] |}).

(** [onSubmit] (lines 36-38) *)
Definition onSubmit (data : JsVal) : Exec Page unit :=
  console_log [JStr "Form Data:"; data].

(** [isEmptyObject] *)
Definition isEmptyObject (errors : gmap string FieldError) : bool :=
  Nat.eqb (size errors) 0.

(** [handleSubmit(onValid)] of react-hook-form with a resolver: the
    resolver runs on the field values, its errors become those of the
    form state, and [onValid] is called with its values when there are
    none. *)
Definition handleSubmit (onValid : JsVal → Exec Page unit)
    (fieldValues : gmap string JsVal) : Exec Page unit :=
  λ page,
    match resolver fieldValues (page_schema page) with
    | (Normal r, st) =>
        let page' := {| page_schema := st;
                        formState_errors := errors r;
                        console := console page |} in
        if isEmptyObject (errors r) then onValid (values r) page'
        else (Normal (), page')
    | (Throw e, st) =>
        (Throw e, {| page_schema := st;
                     formState_errors := formState_errors page;
                     console := console page |})
    end.

(** The page as it is mounted, and after a run of submits. *)
Definition mounted : Page :=
  {| page_schema := fresh; formState_errors := ∅; console := [] |}.

Fixpoint submitted (history : list (gmap string JsVal)) (page : Page)
  : Page :=
  match history with
  | [] => page
  | fieldValues :: later =>
      submitted later (handleSubmit onSubmit fieldValues page).2
  end.

(** The messages the form renders, slot by slot. *)
Definition rendered (errors : gmap string FieldError)
  : list (option string) :=
  map (λ key, message <$> errors !! key) message_slots.

(** ** The parse only appends *)

Lemma push_nil st : push [] st = st.
Proof. destruct st; unfold push; simpl. by rewrite app_nil_r. Qed.

Lemma push_push n1 n2 st : push n2 (push n1 st) = push (n1 ++ n2) st.
Proof. unfold push; simpl. by rewrite app_assoc. Qed.

Lemma appends_ret {A} (a : A) : appends (ret a) a [].
Proof. intros st. unfold ret. by rewrite push_nil. Qed.

Lemma appends_addIssue ctx d m :
  appends (addIssueToContext ctx d m) () [makeIssue ctx d m].
Proof. by intros st. Qed.

Lemma appends_bind {A B} (p : Parse A) (k : A → Parse B) a b n1 n2 :
  appends p a n1 → appends (k a) b n2 → appends (bind p k) b (n1 ++ n2).
Proof.
  intros Hp Hk st. unfold bind. rewrite Hp, Hk. by rewrite push_push.
Qed.

Lemma appends_report ctx d m {A} (a : A) :
  appends (let* _ := addIssueToContext ctx d m in ret a) a
    [makeIssue ctx d m].
Proof.
  eapply (appends_bind _ _ () a [_] []); [apply appends_addIssue|apply appends_ret].
Qed.

Lemma reports_abort ctx d m input :
  ctx_path ctx = input_path input →
  reports (let* _ := addIssueToContext ctx d m in ret INVALID) input.
Proof.
  intros Hp. exists INVALID, [makeIssue ctx d m].
  split; [apply appends_report|]. split; [by split|]. split; [done|].
  by repeat constructor.
Qed.

(** The loop over the checks of a string or number schema. *)
Lemma checks_loop {C} (body : C → ParseStatus → Parse ParseStatus) path :
  (∀ c s, appends (body c s) s []
          ∨ ∃ i, issue_path i = path
                 ∧ appends (body c s) (ParseStatus_dirty s) [i]) →
  ∀ checks s, s ≠ aborted →
    ∃ s' new, appends (for_of checks body s) s' new
      ∧ s' ≠ aborted
      ∧ (s' = valid ↔ s = valid ∧ new = [])
      ∧ Forall (λ i, issue_path i = path) new.
Proof.
  intros Hbody checks. induction checks as [|c checks IH]; intros s Hs.
  - exists s, []. split; [apply appends_ret|]. split; [done|].
    split; [|done]. split; [done|]. by intros [? _].
  - destruct (Hbody c s) as [H|(i & Hi & H)].
    + destruct (IH s Hs) as (s' & new & Ha & Hs' & Hv & Hp).
      exists s', new. split; [|done].
      simpl. by apply (appends_bind _ _ s s' [] new).
    + destruct (IH (ParseStatus_dirty s)) as (s' & new & Ha & Hs' & Hv & Hp).
      { by destruct s. }
      exists s', (i :: new). split.
      { simpl. by apply (appends_bind _ _ (ParseStatus_dirty s) s' [i] new). }
      split; [done|]. split; [|by constructor].
      split; [|by intros [_ ?]].
      intros ->. destruct Hv as [Hv _]. destruct (Hv eq_refl) as [Hd _].
      by destruct s.
Qed.

Lemma reports_loop {C} (body : C → ParseStatus → Parse ParseStatus) checks
    input :
  (∀ c s, appends (body c s) s []
          ∨ ∃ i, issue_path i = input_path input
                 ∧ appends (body c s) (ParseStatus_dirty s) [i]) →
  reports (let* status := for_of checks body valid in
           ret {| status := status; value := data input |}) input.
Proof.
  intros Hbody.
  destruct (checks_loop body _ Hbody checks valid) as (s' & new & Ha & Hs' & Hv & Hp);
    [done|].
  exists {| status := s'; value := data input |}, new.
  split.
  { rewrite <- (app_nil_r new).
    eapply appends_bind; [exact Ha|apply appends_ret]. }
  split; [|done]. simpl. rewrite Hv. by intuition.
Qed.

Lemma reports_ZodString checks input :
  reports (ZodString_parse checks input) input.
Proof.
  unfold ZodString_parse. destruct input as [d p]; simpl.
  destruct d; try by apply reports_abort.
  apply (reports_loop _ checks {| data := JStr s; input_path := p |}).
  intros [value m|m|re m] st; simpl.
  - destruct (_ <? _)%Z; [right|left; apply appends_ret].
    eexists; split; [|apply appends_report]. done.
  - destruct (emailRegex s); simpl; [left; apply appends_ret|right].
    eexists; split; [|apply appends_report]. done.
  - destruct (RegExp.test re s); simpl; [left; apply appends_ret|right].
    eexists; split; [|apply appends_report]. done.
Qed.

Lemma reports_ZodNumber checks input :
  reports (ZodNumber_parse checks input) input.
Proof.
  unfold ZodNumber_parse. destruct input as [d p]; simpl.
  destruct d; try by apply reports_abort.
  destruct (Js.isNaN n); [by apply reports_abort|].
  apply (reports_loop _ checks {| data := JNum n; input_path := p |}).
  intros [value inclusive m] st; simpl.
  destruct (if inclusive then _ else _); [right|left; apply appends_ret].
  eexists; split; [|apply appends_report]. done.
Qed.

Lemma reports_valid input :
  reports (ret (OK (data input))) input.
Proof.
  exists (OK (data input)), []. split; [apply appends_ret|]. by repeat split.
Qed.

Lemma reports_ZodDate input : reports (ZodDate_parse input) input.
Proof.
  unfold ZodDate_parse. destruct input as [d p]; simpl.
  destruct d; try by apply reports_abort.
  destruct (Js.isNaN _); [by apply reports_abort|].
  apply (reports_valid {| data := JDate time; input_path := p |}).
Qed.

Lemma reports_ZodEnum values errorMap input :
  reports (ZodEnum_parse values errorMap input) input.
Proof.
  unfold ZodEnum_parse. destruct input as [d p]; simpl.
  destruct d; try by apply reports_abort.
  destruct (Js.includes values s); simpl; [|by apply reports_abort].
  apply (reports_valid {| data := JStr s; input_path := p |}).
Qed.

Lemma reports_ZodEffects inner refinement m input :
  reports (inner input) input →
  reports (ZodEffects_parse inner refinement m input) input.
Proof.
  intros (r & new & Ha & Hv & Hd & Hp). unfold ZodEffects_parse.
  destruct (status r) eqn:Hs.
  - (* valid *)
    assert (new = []) as -> by by apply Hv.
    destruct (refinement (value r)) eqn:Hr.
    + exists {| status := valid; value := value r |}, [].
      split.
      { intros st. unfold bind. rewrite Ha, Hs, Hr. done. }
      split; [done|]. split; [|done]. intros _. simpl. by apply Hd.
    + eexists {| status := dirty; value := value r |}, [_].
      split.
      { intros st. unfold bind at 1. rewrite Ha, Hs, Hr.
        rewrite appends_report, push_push. reflexivity. }
      split; [by split|]. split; [|by repeat constructor].
      intros _. simpl. by apply Hd.
  - (* dirty *)
    assert (new ≠ []) as Hne by (intros ->; by destruct Hv as [_ Hv]; specialize (Hv eq_refl)).
    destruct (refinement (value r)) eqn:Hr.
    + exists {| status := dirty; value := value r |}, new.
      split.
      { intros st. unfold bind. rewrite Ha, Hs, Hr. done. }
      split; [by split|]. split; [|done]. intros _. simpl. by apply Hd.
    + eexists {| status := dirty; value := value r |}, (new ++ [_]).
      split.
      { intros st. unfold bind at 1. rewrite Ha, Hs, Hr.
        rewrite appends_report, push_push. reflexivity. }
      split. { split; [done|]. by destruct new. }
      split. { intros _. simpl. by apply Hd. }
      apply Forall_app. split; [done|]. by repeat constructor.
  - (* aborted *)
    assert (new ≠ []) as Hne by (intros ->; by destruct Hv as [_ Hv]; specialize (Hv eq_refl)).
    exists INVALID, new. split.
    { intros st. unfold bind. rewrite Ha, Hs. done. }
    split; [by split|]. by split.
Qed.

Lemma reports_ZodOptional inner input :
  reports (inner input) input →
  reports (ZodOptional_parse inner input) input.
Proof.
  intros H. unfold ZodOptional_parse. destruct input as [d p]; simpl.
  destruct d; try done.
  apply (reports_valid {| data := JUndefined; input_path := p |}).
Qed.

(** Every field schema returns, appends, and reports exactly when the
    status it returns is not [valid]. *)
Lemma reports_parse this :
  object_free this = true → ∀ input, reports (_parse this input) input.
Proof.
  induction this as [checks|checks| |values errorMap|inner IH refinement m
                      |inner IH|shape]; simpl; intros Hfree input.
  - apply reports_ZodString.
  - apply reports_ZodNumber.
  - apply reports_ZodDate.
  - apply reports_ZodEnum.
  - apply reports_ZodEffects, IH, Hfree.
  - apply reports_ZodOptional, IH, Hfree.
  - done.
Qed.


Lemma outcome_reports this input :
  object_free this = true →
  appends (_parse this input) (outcome this input).1 (outcome this input).2
  ∧ (status (outcome this input).1 = valid ↔ (outcome this input).2 = [])
  ∧ (status (outcome this input).1 ≠ aborted
     → value (outcome this input).1 = data input)
  ∧ Forall (λ i, issue_path i = input_path input) (outcome this input).2.
Proof.
  intros Hfree.
  destruct (reports_parse this Hfree input) as (r & new & Ha & H).
  unfold outcome. rewrite Ha. done.
Qed.

(** ** The object schema *)

Lemma object_loop shape_get sch props path keys :
  (∀ k, k ∈ keys →
     shape_get k = Some (_parse (sch k)) ∧ object_free (sch k) = true) →
  ∀ pairs,
  appends
    (for_of keys (λ key pairs,
       match shape_get key with
       | None =>
           throw (TypeError
             "Cannot read properties of undefined (reading '_parse')")
       | Some keyValidator_parse =>
           let* value :=
             keyValidator_parse
               {| data := Js.get props key;
                  input_path := path ++ [key] |} in
           ret (pairs ++ [{| pair_key := key; pair_value := value;
                             alwaysSet := Js.has props key |}])
       end) pairs)
    (pairs ++ map (pair_of sch props path) keys)
    (concat (map (issues_of sch props path) keys)).
Proof.
  induction keys as [|k keys IH]; intros Hkeys pairs; simpl.
  - rewrite app_nil_r. apply appends_ret.
  - destruct (Hkeys k) as [Hget Hfree]; [by left|]. rewrite Hget.
    destruct (outcome_reports (sch k)
                {| data := Js.get props k; input_path := path ++ [k] |} Hfree)
      as (Ha & _).
    eapply (appends_bind _ _ (pairs ++ [pair_of sch props path k])).
    + intros st. unfold bind. by rewrite Ha.
    + replace (pairs ++ pair_of sch props path k :: map (pair_of sch props path) keys)
        with ((pairs ++ [pair_of sch props path k]) ++ map (pair_of sch props path) keys)
        by by rewrite <- app_assoc.
      apply IH. intros k' Hk'. apply Hkeys. by right.
Qed.

Lemma ZodObject_parse_fields keys shape_get sch props path l cached :
  (∀ k, k ∈ keys →
     shape_get k = Some (_parse (sch k)) ∧ object_free (sch k) = true) →
  cached = None ∨ cached = Some keys →
  ZodObject_parse keys shape_get
    {| data := JObject props; input_path := path |}
    {| issues := l; _cached := cached |}
  = (Normal (mergeObjectSync valid (map (pair_of sch props path) keys) ∅),
     {| issues := l ++ concat (map (issues_of sch props path) keys);
        _cached := Some keys |}).
Proof.
  intros Hkeys Hcached. unfold ZodObject_parse; simpl.
  unfold bind at 1, _getCached; simpl.
  destruct Hcached as [-> | ->]; simpl;
    unfold bind; rewrite (object_loop shape_get sch props path keys Hkeys []);
    reflexivity.
Qed.

(** *** Merging the fields *)

Lemma mergeObjectSync_status merged pairs acc :
  status (mergeObjectSync merged pairs acc) = valid
  ↔ merged = valid ∧ Forall (λ p, status (pair_value p) = valid) pairs.
Proof.
  revert merged acc.
  induction pairs as [|p pairs IH]; intros merged acc; simpl.
  - split; [by split|by intros [? _]].
  - destruct (status (pair_value p)) eqn:Hs.
    + rewrite IH. split; intros [? Hall]; split; auto.
      by inversion Hall.
    + rewrite IH. split.
      * intros [Hd _]. by destruct merged.
      * intros [_ Hall]. inversion Hall; congruence.
    + split; [done|]. intros [_ Hall]. inversion Hall; congruence.
Qed.

Lemma mergeObjectSync_value sch props path keys :
  "__proto__" ∉ keys →
  (∀ k, k ∈ keys → object_free (sch k) = true) →
  ∀ merged acc,
    Forall (λ p, status (pair_value p) = valid)
      (map (pair_of sch props path) keys) →
    (∀ j v, acc !! j = Some v → props !! j = Some v) →
    ∃ final,
      value (mergeObjectSync merged (map (pair_of sch props path) keys) acc)
      = JObject final
      ∧ ∀ j, final !! j = if decide (j ∈ keys) then props !! j else acc !! j.
Proof.
  induction keys as [|k keys IH]; intros Hproto Hfree merged acc Hall Hacc.
  - exists acc. split; [done|]. intros j.
    by rewrite decide_False by by intros ?%elem_of_nil.
  - cbn [map] in *. apply Forall_cons in Hall as [Hk Hall].
    cbn [mergeObjectSync]. rewrite Hk.
    assert (value (pair_value (pair_of sch props path k)) = Js.get props k)
      as Hval.
    { destruct (outcome_reports (sch k)
                  {| data := Js.get props k; input_path := path ++ [k] |})
        as (_ & _ & Hd & _); [apply Hfree; by left|].
      apply Hd. unfold pair_of in Hk; simpl in Hk. by rewrite Hk. }
    rewrite Hval.
    change (pair_key (pair_of sch props path k)) with k.
    change (alwaysSet (pair_of sch props path k)) with (Js.has props k).
    assert (String.eqb k "__proto__" = false) as ->.
    { apply String.eqb_neq. intros ->. apply Hproto. by left. }
    set (acc' := if negb false && _ then _ else acc).
    assert (∀ j, acc' !! j = if decide (j = k) then props !! k else acc !! j)
      as Hacc'.
    { intros j. subst acc'. unfold Js.get, Js.has. simpl.
      destruct (props !! k) as [v|] eqn:Hpk; simpl.
      - rewrite orb_true_r, lookup_insert.
        by repeat case_decide; subst.
      - case_decide; [subst|done].
        destruct (acc !! k) eqn:Hak; [|done]. apply Hacc in Hak. congruence. }
    destruct (IH (λ H, Hproto (proj2 (elem_of_cons _ _ _) (or_intror H)))
                 (λ k' H, Hfree k' (proj2 (elem_of_cons _ _ _) (or_intror H)))
                 merged acc' Hall) as (final & Hfinal & Hlookup).
    { intros j v. rewrite Hacc'. case_decide; [by subst|apply Hacc]. }
    exists final. split; [exact Hfinal|].
    intros j. rewrite Hlookup, Hacc'.
    destruct (decide (j = k)) as [->|Hne].
    + rewrite (decide_True (P := k ∈ k :: keys)) by by left.
      by case_decide.
    + destruct (decide (j ∈ keys)).
      * by rewrite decide_True by by right.
      * rewrite decide_False; [done|]. by intros [?|?]%elem_of_cons.
Qed.


(** ** The form's schema, field by field *)

Lemma elem_of_fields (P : string → Prop) :
  P "name" → P "email" → P "phone" → P "tickets" → P "date" → P "time" →
  P "payment" → P "seat" → P "specialRequests" →
  ∀ k, k ∈ fields → P k.
Proof.
  intros ????????? k Hk. unfold fields in Hk; simpl in Hk.
  repeat (apply elem_of_cons in Hk as [->|Hk]; [assumption|]).
  by apply elem_of_nil in Hk.
Qed.

Lemma fields_table k :
  k ∈ fields →
  shape_lookup (shape_of schema) k = Some (field_schema k)
  ∧ object_free (field_schema k) = true.
Proof. revert k. by apply elem_of_fields. Qed.

Lemma _parse_ZodObject shape :
  _parse (ZodObject shape)
  = ZodObject_parse (map fst shape)
      ((fix shape_get (shape : list (string * ZodType)) (key : string) :=
          match shape with
          | [] => None
          | (k, validator) :: rest =>
              if String.eqb k key then Some (_parse validator)
              else shape_get rest key
          end) shape).
Proof. reflexivity. Qed.

Lemma parse_schema values cached :
  cached = None ∨ cached = Some fields →
  _parse schema {| data := JObject values; input_path := [] |}
    {| issues := []; _cached := cached |}
  = (Normal (mergeObjectSync valid (map (pair_of field_schema values []) fields) ∅),
     {| issues := all_issues values; _cached := Some fields |}).
Proof.
  intros Hc. unfold schema, z.object. rewrite _parse_ZodObject.
  rewrite (ZodObject_parse_fields _ _ field_schema values [] [] cached);
    [done| |done].
  apply elem_of_fields; by split.
Qed.

Lemma field_reports values k :
  k ∈ fields →
  (status (field_outcome values k).1 = valid ↔ field_issues values k = [])
  ∧ (status (field_outcome values k).1 ≠ aborted
     → value (field_outcome values k).1 = Js.get values k)
  ∧ Forall (λ i, issue_path i = [k]) (field_issues values k).
Proof.
  intros Hk. destruct (fields_table k Hk) as [_ Hfree].
  by destruct (outcome_reports (field_schema k)
                 {| data := Js.get values k; input_path := [k] |} Hfree)
    as (_ & ? & ? & ?).
Qed.

Lemma all_issues_nil values :
  all_issues values = []
  ↔ Forall (λ p, status (pair_value p) = valid)
      (map (pair_of field_schema values []) fields).
Proof.
  unfold all_issues. rewrite Forall_map.
  assert (∀ keys, (∀ k, k ∈ keys → k ∈ fields) →
            concat (map (field_issues values) keys) = []
            ↔ Forall (λ k, status (pair_value (pair_of field_schema values [] k))
                           = valid) keys) as H.
  { induction keys as [|k keys IH]; intros Hsub; simpl; [by split|].
    rewrite Forall_cons, <- IH by (intros; apply Hsub; by right).
    destruct (field_reports values k) as (Hv & _); [apply Hsub; by left|].
    unfold field_outcome in Hv. unfold pair_of; simpl. rewrite Hv.
    split.
    - by intros [? ?]%app_eq_nil.
    - intros [-> ->]. done. }
  by apply H.
Qed.

Lemma strip_lookup values j :
  strip values !! j = if decide (j ∈ fields) then values !! j else None.
Proof.
  unfold strip. apply option_eq; intros v.
  rewrite map_lookup_filter_Some. simpl.
  case_decide; [tauto|]. split; [tauto|done].
Qed.

(** The resolver returns, and what it returns can be read off the
    outcomes of the nine fields; afterwards the keys are cached. *)
Lemma resolver_summary values cached :
  cached = None ∨ cached = Some fields →
  resolver values cached = (Normal (summary values), Some fields).
Proof.
  intros Hc. unfold resolver, zodResolver, parseAsync, bind, safeParse.
  rewrite (parse_schema values cached Hc). cbn [issues _cached]. unfold summary.
  destruct (all_issues values) as [|i l] eqn:Hall.
  - pose proof (proj1 (all_issues_nil values) Hall) as Hvalid.
    unfold handleResult.
    rewrite (proj2 (mergeObjectSync_status valid _ ∅) (conj eq_refl Hvalid)).
    destruct (mergeObjectSync_value field_schema values [] fields)
      with (merged := valid) (acc := (∅ : gmap string JsVal))
      as (final & -> & Hfinal); try done.
    + intros Hin. by apply (elem_of_fields (λ k, k ≠ "__proto__")) in Hin.
    + intros k Hk. by apply fields_table.
    + assert (final = strip values) as ->; [|done].
      apply map_eq. intros j.
      rewrite Hfinal, strip_lookup. by case_decide.
  - unfold handleResult.
    destruct (status (mergeObjectSync valid _ ∅)) eqn:Hs; try done.
    apply mergeObjectSync_status in Hs as [_ Hs].
    apply all_issues_nil in Hs. congruence.
Qed.

(** ** Regular expressions: [\d{n}] *)

Lemma test_Never s : RegExp.test RegExp.Never s = false.
Proof. by induction s. Qed.

Lemma test_Seq_Never r s : RegExp.test (RegExp.Seq RegExp.Never r) s = false.
Proof. by induction s. Qed.

Lemma test_Alt r1 r2 s :
  RegExp.test (RegExp.Alt r1 r2) s = RegExp.test r1 s || RegExp.test r2 s.
Proof. revert r1 r2. induction s as [|c s IH]; intros; simpl; [done|apply IH]. Qed.

Lemma test_Seq_Empty r s :
  RegExp.test (RegExp.Seq RegExp.Empty r) s = RegExp.test r s.
Proof.
  destruct s as [|c s]; simpl; [done|].
  by rewrite test_Alt, test_Seq_Never.
Qed.

Lemma test_times_Class p n s :
  RegExp.test (RegExp.times n (RegExp.Class p)) s
  = (String.length s =? n)%nat && forallb p (String.list_ascii_of_string s).
Proof.
  revert s. induction n as [|n IH]; intros [|c s]; simpl; try done.
  - by rewrite test_Never.
  - destruct (p c); simpl.
    + by rewrite test_Seq_Empty, IH.
    + by rewrite test_Seq_Never, andb_false_r.
Qed.

(** ** The resolver's error map *)

Lemma parseErrorSchema_lookup zodErrors acc p :
  parseErrorSchema zodErrors acc !! p
  = match acc !! p with
    | Some e => Some e
    | None =>
        FieldError_of
          <$> head (filter (λ i, Js.join "." (issue_path i) = p) zodErrors)
    end.
Proof.
  revert acc. induction zodErrors as [|i l IH]; intros acc; simpl.
  - by destruct (acc !! p).
  - rewrite IH, filter_cons.
    destruct (decide (Js.join "." (issue_path i) = p)) as [<-|Hne].
    + destruct (acc !! Js.join "." (issue_path i)) eqn:Hacc.
      * by rewrite Hacc.
      * by rewrite lookup_insert_eq.
    + destruct (acc !! Js.join "." (issue_path i)) eqn:Hacc; [done|].
      by rewrite lookup_insert_ne.
Qed.

Lemma filter_path_same (k : string) l :
  Forall (λ i, issue_path i = [k]) l →
  filter (λ i, Js.join "." (issue_path i) = k) l = l.
Proof.
  induction 1 as [|i l Hi Hl IH]; [done|].
  rewrite filter_cons, decide_True; [by f_equal|by rewrite Hi].
Qed.

Lemma filter_path_other (k k' : string) l :
  k ≠ k' →
  Forall (λ i, issue_path i = [k']) l →
  filter (λ i, Js.join "." (issue_path i) = k) l = [].
Proof.
  intros Hne. induction 1 as [|i l Hi Hl IH]; [done|].
  rewrite filter_cons, decide_False; [done|]. rewrite Hi. simpl. congruence.
Qed.

Lemma filter_field_issues values (k : string) keys :
  NoDup keys → (∀ k', k' ∈ keys → k' ∈ fields) →
  filter (λ i, Js.join "." (issue_path i) = k)
    (concat (map (field_issues values) keys))
  = if decide (k ∈ keys) then field_issues values k else [].
Proof.
  induction keys as [|k' keys IH]; intros Hnd Hsub; [done|]. cbn [map concat].
  apply NoDup_cons in Hnd as [Hk' Hnd].
  rewrite filter_app, IH by (done || intros; apply Hsub; by right).
  destruct (field_reports values k') as (_ & _ & Hpath); [apply Hsub; by left|].
  destruct (decide (k = k')) as [->|Hne].
  - rewrite (decide_False (P := k' ∈ keys)) by done.
    rewrite (decide_True (P := k' ∈ k' :: keys)) by by left.
    by rewrite app_nil_r, filter_path_same.
  - rewrite (filter_path_other k k') by done. simpl.
    destruct (decide (k ∈ keys)).
    + by rewrite decide_True by by right.
    + rewrite decide_False; [done|]. by intros [?|?]%elem_of_cons.
Qed.

Lemma NoDup_fields : NoDup fields.
Proof. by apply (bool_decide_unpack (NoDup fields)). Qed.

(** Under each field stands the first issue of that field's schema. *)
Lemma errors_lookup values k :
  errors (summary values) !! k
  = if decide (k ∈ fields)
    then FieldError_of <$> head (field_issues values k)
    else None.
Proof.
  assert (parseErrorSchema (all_issues values) ∅ !! k
          = if decide (k ∈ fields)
            then FieldError_of <$> head (field_issues values k)
            else None) as H.
  { rewrite parseErrorSchema_lookup, lookup_empty. unfold all_issues.
    rewrite filter_field_issues by (apply NoDup_fields || done).
    by case_decide. }
  unfold summary. destruct (all_issues values) eqn:Hall; [|done].
  simpl. rewrite lookup_empty. simpl in H. by rewrite lookup_empty in H.
Qed.

(** ** The fields one by one *)

Lemma length_not_below_1 a s :
  (Z.of_nat (String.length (String a s)) <? 1)%Z = false.
Proof. apply Z.ltb_ge. simpl String.length. lia. Qed.

Lemma field_issues_table values k :
  k ∈ fields → field_issues values k = expected_issues k (Js.get values k).
Proof.
  revert k.
  apply (elem_of_fields
           (λ k, field_issues values k = expected_issues k (Js.get values k)));
    unfold field_issues, field_outcome, outcome;
    destruct (Js.get values _) as [| |b|n|s|time|items|props|kind].
  all: try (vm_compute; reflexivity).
  - destruct s as [|a s]; [by vm_compute|].
    cbn -[Z.of_nat Z.ltb String.length].
    by rewrite length_not_below_1.
  - cbn. by destruct (emailRegex s).
  - cbn -[RegExp.test RegExp.times RegExp.digit].
    unfold RegExp.digit. rewrite test_times_Class.
    by destruct (_ && _).
  - destruct n as [|neg|q]; [by vm_compute|by destruct neg; vm_compute|].
    cbn -[Qle_bool]. by destruct (Qle_bool _ _).
  - destruct time; by vm_compute.
  - destruct time; by vm_compute.
  - cbn -[Js.includes joinValues]. by destruct (Js.includes _ _).
  - cbn -[Js.includes joinValues]. by destruct (Js.includes _ _).
Qed.

Lemma includes_elem_of xs x : Js.includes xs x = bool_decide (x ∈ xs).
Proof.
  unfold Js.includes. induction xs as [|y xs IH]; simpl; [done|].
  rewrite IH. destruct (String.eqb_spec x y) as [->|Hne]; simpl.
  - symmetry. apply bool_decide_eq_true. by left.
  - apply bool_decide_ext. rewrite elem_of_cons.
    split; [by right|by intros [?|?]].
Qed.

(** A field reports nothing exactly when its rule holds. *)
Lemma expected_issues_rule k d :
  k ∈ fields → expected_issues k d = [] ↔ rule k d = true.
Proof.
  revert k.
  apply (elem_of_fields (λ k, expected_issues k d = [] ↔ rule k d = true));
    cbn [expected_issues rule String.eqb Ascii.eqb Bool.eqb].
  - destruct d as [| | | |[|a s]| | | |]; by cbn.
  - destruct d as [| | | |s| | | |]; cbn; try done. by destruct (emailRegex s).
  - destruct d as [| | | |s| | | |]; cbn; try done. by destruct (_ && _).
  - destruct d as [| | |[|[]|q]| | | | |]; cbn; try done.
    by destruct (Qle_bool _ _).
  - by destruct d as [| | | | |[]| | |].
  - by destruct d as [| | | | |[]| | |].
  - destruct d as [| | | |s| | | |]; cbn -[Js.includes]; try done.
    rewrite includes_elem_of. by destruct (bool_decide _).
  - destruct d as [| | | |s| | | |]; cbn -[Js.includes]; try done.
    rewrite includes_elem_of. by destruct (bool_decide _).
  - by destruct d.
Qed.

Lemma field_issues_rule values k :
  k ∈ fields →
  field_issues values k = [] ↔ rule k (Js.get values k) = true.
Proof.
  intros Hk. rewrite field_issues_table by done. by apply expected_issues_rule.
Qed.

(** ** The validator *)

Lemma validate_summary values : validate values = Normal (summary values).
Proof. unfold validate, fresh. rewrite resolver_summary; auto. Qed.

Lemma well_formed_rules values :
  well_formed values = true
  ↔ ∀ k, k ∈ fields → rule k (Js.get values k) = true.
Proof.
  unfold well_formed. rewrite !andb_true_iff. split.
  - intros [[[[[[[[? ?] ?] ?] ?] ?] ?] ?] ?]. by apply elem_of_fields.
  - intros H.
    repeat split;
      [apply (H "name")|apply (H "email")|apply (H "phone")
      |apply (H "tickets")|apply (H "date")|apply (H "time")
      |apply (H "payment")|apply (H "seat")|apply (H "specialRequests")];
      by apply (bool_decide_unpack (_ ∈ fields)).
Qed.

Lemma all_issues_well_formed values :
  all_issues values = [] ↔ well_formed values = true.
Proof.
  rewrite well_formed_rules. unfold all_issues.
  assert (∀ keys, (∀ k, k ∈ keys → k ∈ fields) →
            concat (map (field_issues values) keys) = []
            ↔ ∀ k, k ∈ keys → rule k (Js.get values k) = true) as H.
  { induction keys as [|k keys IH]; intros Hsub; cbn [map concat].
    - split; [by intros _ k ?%elem_of_nil|done].
    - assert (k ∈ fields) as Hk by (apply Hsub; by left).
      split.
      + intros [Hk0 Hrest]%app_eq_nil k' [->|Hk']%elem_of_cons.
        * by apply field_issues_rule.
        * apply IH; [|done..]. intros; apply Hsub; by right.
      + intros Hall. rewrite (proj2 (field_issues_rule values k Hk)).
        * apply IH; [intros; apply Hsub; by right|].
          intros k' Hk'. apply Hall. by right.
        * apply Hall. by left. }
  by apply H.
Qed.

Lemma summary_well_formed input :
  well_formed input = true →
  summary input = {| values := JObject (strip input); errors := ∅ |}.
Proof.
  intros Hwf. unfold summary.
  by rewrite (proj2 (all_issues_well_formed input) Hwf).
Qed.

Lemma parseErrorSchema_nonempty i l : parseErrorSchema (i :: l) ∅ ≠ ∅.
Proof.
  intros Hempty.
  apply (f_equal (λ m, m !! Js.join "." (issue_path i))) in Hempty.
  rewrite lookup_empty in Hempty. simpl in Hempty.
  by rewrite lookup_empty, parseErrorSchema_lookup, lookup_insert_eq in Hempty.
Qed.

Lemma summary_ill_formed input :
  well_formed input = false →
  values (summary input) = JObject ∅ ∧ errors (summary input) ≠ ∅.
Proof.
  intros Hwf. unfold summary.
  destruct (all_issues input) as [|i l] eqn:Hall.
  - apply all_issues_well_formed in Hall. congruence.
  - split; [done|]. apply parseErrorSchema_nonempty.
Qed.

Lemma shown_field values k :
  k ∈ fields →
  shown (summary values) k
  = issue_message <$> head (expected_issues k (Js.get values k)).
Proof.
  intros Hk. unfold shown.
  rewrite errors_lookup, decide_True, field_issues_table by done.
  by destruct (expected_issues _ _).
Qed.

Lemma get_insert values k v k' :
  Js.get (<[k := v]> values) k' = if decide (k = k') then v else Js.get values k'.
Proof.
  unfold Js.get. rewrite lookup_insert. by case_decide.
Qed.

Lemma strip_insert values k v :
  k ∈ fields → strip (<[k := v]> values) = <[k := v]> (strip values).
Proof. intros Hk. unfold strip. by rewrite map_filter_insert_True. Qed.

Lemma getParsedType_string d :
  getParsedType d = ZPT_string → ∃ s, d = JStr s.
Proof. destruct d as [| | |[|[]|]| | | | |[]]; try done. by eexists. Qed.

Lemma getParsedType_number d :
  getParsedType d = ZPT_number → ∃ n, d = JNum n ∧ Js.isNaN n = false.
Proof. destruct d as [| | |[|[]|]| | | | |[]]; try done; by eexists. Qed.

(** ** The properties of the specification *)

(** C2, as amended.  Validation does not stop at the first failing field:
    the error map has an entry for exactly the fields whose rule is
    violated; the entry of a field is the first issue that field's schema
    raises; and under name, email, phone and tickets, when they hold a
    value of the kind §3 gives them, it carries the message of §4.1. *)
Theorem every_violated_field_reported input :
  ∃ r, validate input = Normal r
    ∧ (∀ k, is_Some (errors r !! k)
            ↔ k ∈ fields ∧ rule k (Js.get input k) = false)
    ∧ (∀ k, k ∈ fields →
         errors r !! k = FieldError_of <$> head (field_issues input k))
    ∧ (∀ k kind, expected_kind k = Some kind →
         getParsedType (Js.get input k) = kind →
         rule k (Js.get input k) = false →
         shown r k = Some (rule_message k)).
Proof.
  exists (summary input). split; [apply validate_summary|].
  split; [|split; [intros k Hk; by rewrite errors_lookup, decide_True|]].
  - intros k. rewrite errors_lookup. case_decide as Hk.
    + rewrite fmap_is_Some, field_issues_table by done.
      pose proof (expected_issues_rule k (Js.get input k) Hk) as Hrule.
      destruct (expected_issues k (Js.get input k)) as [|i l].
      * rewrite (proj1 Hrule eq_refl). split; [by intros [? ?]|by intros [_ ?]].
      * split; [|by eauto]. intros _. split; [done|].
        destruct (rule k (Js.get input k)); [|done].
        by specialize (proj2 Hrule eq_refl).
    + split; [by intros [? ?]|by intros [? _]].
  - intros k kind Hkind Htype Hrule.
    assert (k ∈ fields ∧ k ∈ ["name"; "email"; "phone"; "tickets"]) as [Hk Hin].
    { unfold expected_kind in Hkind.
      destruct (String.eqb_spec k "name") as [->|_];
        [split; by apply (bool_decide_unpack (_ ∈ _))|].
      destruct (String.eqb_spec k "email") as [->|_];
        [split; by apply (bool_decide_unpack (_ ∈ _))|].
      destruct (String.eqb_spec k "phone") as [->|_];
        [split; by apply (bool_decide_unpack (_ ∈ _))|].
      destruct (String.eqb_spec k "tickets") as [->|_];
        [split; by apply (bool_decide_unpack (_ ∈ _))|].
      done. }
    rewrite shown_field by done. clear Hk.
    repeat (apply elem_of_cons in Hin as [->|Hin]);
      [..|by apply elem_of_nil in Hin];
      injection Hkind as <-;
      cbn [expected_issues rule String.eqb Ascii.eqb Bool.eqb] in *.
    + apply getParsedType_string in Htype as [[|a s] Hs];
        rewrite Hs in *; by cbn in *.
    + apply getParsedType_string in Htype as [s Hs]. rewrite Hs in *.
      cbn in *. by rewrite Hrule.
    + apply getParsedType_string in Htype as [s Hs]. rewrite Hs in *.
      cbn in *. by rewrite Hrule.
    + apply getParsedType_number in Htype as (n & Hs & Hn). rewrite Hs in *.
      destruct n as [|[]|q]; cbn in *; try done.
      by destruct (Qle_bool _ _).
Qed.

(** C3, as amended.  When every field is valid and specialRequests is
    absent, validation succeeds and the record it returns has no
    specialRequests property either. *)
Theorem absent_specialRequests_stays_absent input :
  well_formed input = true →
  input !! "specialRequests" = None →
  ∃ record,
    validate input = Normal {| values := JObject record; errors := ∅ |}
    ∧ record !! "specialRequests" = None
    ∧ Js.get record "specialRequests" = JUndefined.
Proof.
  intros Hwf Habsent. exists (strip input).
  split; [by rewrite validate_summary, summary_well_formed|].
  assert (strip input !! "specialRequests" = None) as H.
  { rewrite strip_lookup. by case_decide. }
  split; [done|]. unfold Js.get. by rewrite H.
Qed.

(** C4, as amended.  A tickets field that holds a number below 1 fails
    validation, and the error map has the entry
    [tickets: "At least one ticket is required"]. *)
Theorem tickets_below_one_rejected input n :
  Js.get input "tickets" = JNum n →
  Js.lt n (Js.of_Z 1) = true →
  ∃ r, validate input = Normal r
    ∧ values r = JObject ∅
    ∧ shown r "tickets" = Some "At least one ticket is required".
Proof.
  intros Hget Hlt. exists (summary input).
  split; [apply validate_summary|]. split.
  - apply summary_ill_formed. unfold well_formed. rewrite Hget.
    assert (rule_tickets (JNum n) = false) as ->; [|by rewrite !andb_false_r].
    destruct n as [|[]|q]; cbn in *; try done.
    by destruct (Qle_bool _ _).
  - rewrite shown_field by by apply (bool_decide_unpack (_ ∈ _)).
    rewrite Hget.
    cbn [expected_issues rule String.eqb Ascii.eqb Bool.eqb tickets_issues].
    destruct n as [|[]|q]; try done. by rewrite Hlt.
Qed.

(** The message handed to [z.enum] is never shown: whatever payment and
    seat hold, the entry under them, if any, carries a default message. *)
Lemma enum_message_never_shown input r :
  validate input = Normal r →
  shown r "payment" ≠ Some "Please select a payment option"
  ∧ shown r "seat" ≠ Some "Please select a seat preference".
Proof.
  rewrite validate_summary. intros [= <-].
  rewrite !shown_field by by apply (bool_decide_unpack (_ ∈ _)).
  cbn [expected_issues rule String.eqb Ascii.eqb Bool.eqb].
  split.
  - destruct (Js.get input "payment") as [| | |[|[]|]|s| | | |[]]; try done.
    cbn -[Js.includes]. by destruct (Js.includes _ s).
  - destruct (Js.get input "seat") as [| | |[|[]|]|s| | | |[]]; try done.
    cbn -[Js.includes]. by destruct (Js.includes _ s).
Qed.

(** The check handed to [refine] holds of everything [z.date()] lets
    through. *)
Lemma refine_check_holds d path :
  status (outcome ZodDate {| data := d; input_path := path |}).1 ≠ aborted →
  is_valid_Date (value (outcome ZodDate {| data := d; input_path := path |}).1)
  = true.
Proof. by destruct d as [| | | | |[]| | |]. Qed.

(** So the messages handed to [refine] are never shown either: a
    refinement runs only on what its inner schema did not abort. *)
Lemma refine_message_never_shown input r :
  validate input = Normal r →
  shown r "date" ≠ Some "Booking date is required"
  ∧ shown r "time" ≠ Some "Show/travel time is required".
Proof.
  rewrite validate_summary. intros [= <-].
  rewrite !shown_field by by apply (bool_decide_unpack (_ ∈ _)).
  cbn [expected_issues rule String.eqb Ascii.eqb Bool.eqb].
  split.
  - by destruct (Js.get input "date") as [| | |[|[]|]|s|[]| | |[]].
  - by destruct (Js.get input "time") as [| | |[|[]|]|s|[]| | |[]].
Qed.

(** C7.  Validation never throws: on every input, an object with
    whatever fields or no object at all, the resolver returns, either a
    record with an empty error map or no record with an error map that
    is not empty. *)
Theorem validation_never_throws (input : JsVal) :
  ∃ r, (zodResolver schema input fresh).1 = Normal r
    ∧ ((∃ record, values r = JObject record ∧ errors r = ∅)
       ∨ (values r = JObject ∅ ∧ errors r ≠ ∅)).
Proof.
  assert (∀ i : ZodIssue, ({[ "" := FieldError_of i ]} : gmap string FieldError) ≠ ∅)
    as Hne by (intros i; apply insert_non_empty).
  destruct input as [| |b|n|s|time|items|props|kind];
    try (eexists; split; [reflexivity|right; split; [reflexivity|apply Hne]]).
  change ((zodResolver schema (JObject props) fresh).1) with (validate props).
  exists (summary props). split; [apply validate_summary|].
  destruct (well_formed props) eqn:Hwf.
  - left. rewrite summary_well_formed by done. by eexists.
  - right. by apply summary_ill_formed.
Qed.

Lemma submits_cached history st :
  st = None ∨ st = Some fields →
  submits history st = None ∨ submits history st = Some fields.
Proof.
  revert st. induction history as [|input history IH]; intros st Hst; [done|].
  simpl. apply IH. rewrite resolver_summary by done. by right.
Qed.

(** C8.  Validation is deterministic and idempotent: whatever was
    submitted before, validating an input returns what a first
    validation of it returns, and validating it again at once returns
    the same; of the store only the cached keys of the schema change,
    and the result does not depend on them. *)
Theorem validation_idempotent (history : list (gmap string JsVal)) input :
  let st := submits history fresh in
  (resolver input st).1 = validate input
  ∧ (resolver input (resolver input st).2).1 = (resolver input st).1.
Proof.
  cbv zeta. unfold validate, fresh.
  destruct (submits_cached history None (or_introl eq_refl)) as [Hst|Hst];
    rewrite Hst; rewrite !resolver_summary by auto; cbn [fst snd];
    rewrite ?resolver_summary by auto; done.
Qed.

(** C9.  The validator puts no upper bound on tickets: in a valid
    input, tickets may be replaced by any number that is at least 1, and
    validation still succeeds. *)
Theorem no_upper_bound_on_tickets input n :
  well_formed input = true →
  Js.le (Js.of_Z 1) n = true →
  validate (<["tickets" := JNum n]> input)
  = Normal {| values := JObject (<["tickets" := JNum n]> (strip input));
              errors := ∅ |}.
Proof.
  intros Hwf Hn. rewrite validate_summary, summary_well_formed.
  - by rewrite strip_insert by by apply (bool_decide_unpack (_ ∈ _)).
  - unfold well_formed in *. rewrite !get_insert. simpl.
    rewrite !andb_true_iff in *. tauto.
Qed.

(** C10.  The name rule only asks for one character: in a valid input,
    name may be replaced by any text of white space alone, and validation
    succeeds with that name unchanged in the record. *)
Theorem whitespace_name_accepted input name :
  well_formed input = true →
  whitespace_only name = true →
  ∃ record,
    validate (<["name" := JStr name]> input)
    = Normal {| values := JObject record; errors := ∅ |}
    ∧ record !! "name" = Some (JStr name).
Proof.
  intros Hwf Hname. exists (<["name" := JStr name]> (strip input)).
  split; [|by rewrite lookup_insert_eq].
  rewrite validate_summary, summary_well_formed.
  - by rewrite strip_insert by by apply (bool_decide_unpack (_ ∈ _)).
  - unfold well_formed in *. rewrite !get_insert. simpl.
    apply andb_true_iff in Hname as [Hne _].
    rewrite !andb_true_iff in *. tauto.
Qed.

(** ** More of the validator *)

Lemma get_strip input k : k ∈ fields → Js.get (strip input) k = Js.get input k.
Proof. intros Hk. unfold Js.get. by rewrite strip_lookup, decide_True. Qed.

Lemma well_formed_strip input : well_formed (strip input) = well_formed input.
Proof.
  unfold well_formed.
  by rewrite !get_strip by by apply (bool_decide_unpack (_ ∈ _)).
Qed.

Lemma strip_fields input k : is_Some (strip input !! k) → k ∈ fields.
Proof. rewrite strip_lookup. case_decide; [done|]. by intros [? ?]. Qed.

Lemma summary_accepted input record :
  summary input = {| values := JObject record; errors := ∅ |} →
  well_formed input = true ∧ record = strip input.
Proof.
  intros Hsum. destruct (well_formed input) eqn:Hwf.
  - rewrite summary_well_formed in Hsum by done. by injection Hsum as <-.
  - destruct (summary_ill_formed input Hwf) as [_ Hne].
    rewrite Hsum in Hne. done.
Qed.

(** X1.  What validation accepts satisfies the rules: a record that comes
    back with an empty error map has every field within its rule and no
    property besides the nine fields, and so had the input. *)
Theorem accepted_record_satisfies_rules input record :
  validate input = Normal {| values := JObject record; errors := ∅ |} →
  well_formed record = true
  ∧ (∀ k, is_Some (record !! k) → k ∈ fields)
  ∧ well_formed input = true.
Proof.
  rewrite validate_summary. intros [= Hsum].
  apply summary_accepted in Hsum as [Hwf ->].
  split; [by rewrite well_formed_strip|]. split; [|done].
  intros k. apply strip_fields.
Qed.

(** X2.  An accepted record is a fixed point: validated again, it is
    accepted and comes back as it is. *)
Theorem accepted_record_revalidates input record :
  validate input = Normal {| values := JObject record; errors := ∅ |} →
  validate record = Normal {| values := JObject record; errors := ∅ |}.
Proof.
  rewrite !validate_summary. intros [= Hsum].
  apply summary_accepted in Hsum as [Hwf ->].
  rewrite summary_well_formed by by rewrite well_formed_strip.
  do 3 f_equal. apply map_filter_id. intros k v Hk.
  apply (strip_fields input). by eexists.
Qed.

Lemma field_issues_agree input input' k :
  Js.get input k = Js.get input' k →
  field_issues input k = field_issues input' k.
Proof. intros H. unfold field_issues, field_outcome. by rewrite H. Qed.

Lemma summary_agree input input' :
  (∀ k, k ∈ fields → input !! k = input' !! k) →
  summary input = summary input'.
Proof.
  intros Hagree. unfold summary.
  assert (all_issues input = all_issues input') as ->.
  { unfold all_issues. f_equal. apply map_ext_in. intros k Hk%list_elem_of_In.
    apply field_issues_agree. unfold Js.get. by rewrite Hagree. }
  assert (strip input = strip input') as ->; [|done].
  apply map_eq. intros k. rewrite !strip_lookup. case_decide; auto.
Qed.

Lemma validate_object_validate props :
  thenable props = false → validate_object props = validate props.
Proof. unfold validate_object, object_value. by intros ->. Qed.

(** X3.  Validation reads the nine fields, and whether [then] and [catch]
    are both functions, and nothing else: two objects that agree on
    those, whatever other properties either has, get the same result. *)
Theorem validation_reads_only_the_fields input input' :
  (∀ k, k ∈ booking_fields → input !! k = input' !! k) →
  thenable input = thenable input' →
  validate_object input = validate_object input'.
Proof.
  intros Hfields Hthen. unfold validate_object, object_value.
  rewrite <- Hthen. destruct (thenable input); [done|].
  change (validate input = validate input').
  by rewrite !validate_summary, (summary_agree input input').
Qed.

(** X4.  The fields are judged one by one: the entry under a field, or
    its absence, depends on the value of that field alone, whatever the
    other fields hold. *)
Theorem field_entry_depends_on_field_alone input input' k :
  k ∈ fields →
  Js.get input k = Js.get input' k →
  ∃ r r', validate input = Normal r
    ∧ validate input' = Normal r'
    ∧ errors r !! k = errors r' !! k.
Proof.
  intros Hk Hget. exists (summary input), (summary input').
  rewrite !validate_summary. split; [done|]. split; [done|].
  by rewrite !errors_lookup, (field_issues_agree input input' k).
Qed.

Lemma rule_insert input k v k' :
  rule k' (Js.get (<[k := v]> input) k')
  = if decide (k = k') then rule k' v else rule k' (Js.get input k').
Proof. rewrite get_insert. by case_decide. Qed.

Lemma well_formed_insert input k v :
  k ∈ fields →
  well_formed (<[k := v]> input) = true
  ↔ rule k v = true
    ∧ ∀ k', k' ∈ fields → k' ≠ k → rule k' (Js.get input k') = true.
Proof.
  intros Hk. rewrite well_formed_rules. split.
  - intros H. split.
    + specialize (H k Hk). by rewrite rule_insert, decide_True in H.
    + intros k' Hk' Hne. specialize (H k' Hk').
      by rewrite rule_insert, decide_False in H.
  - intros [Hv Hrest] k' Hk'. rewrite rule_insert.
    case_decide as Heq; [by subst|]. by apply Hrest.
Qed.

Lemma insert_accepted input k v :
  k ∈ fields → well_formed input = true → rule k v = true →
  validate (<[k := v]> input)
  = Normal {| values := JObject (<[k := v]> (strip input)); errors := ∅ |}.
Proof.
  intros Hk Hwf Hv. rewrite validate_summary, summary_well_formed.
  - by rewrite strip_insert.
  - apply well_formed_insert; [done|]. split; [done|].
    intros k' Hk' _. by apply well_formed_rules.
Qed.

Lemma insert_rejected input k v :
  k ∈ fields → rule k v = false →
  ∃ r, validate (<[k := v]> input) = Normal r
    ∧ values r = JObject ∅
    ∧ errors r ≠ ∅
    ∧ shown r k = issue_message <$> head (expected_issues k v).
Proof.
  intros Hk Hv. exists (summary (<[k := v]> input)).
  split; [apply validate_summary|].
  assert (well_formed (<[k := v]> input) = false) as Hwf.
  { apply not_true_is_false. intros [Hv' _]%well_formed_insert; [|done].
    congruence. }
  destruct (summary_ill_formed _ Hwf) as [? ?].
  split; [done|]. split; [done|].
  by rewrite shown_field, get_insert, decide_True.
Qed.

(** X5.  Nothing is coerced: text in the tickets field, which is what a
    [<select>] element holds, is rejected whatever it reads, digits
    included, and the entry says so. *)
Theorem tickets_text_rejected input s :
  Js.get input "tickets" = JStr s →
  ∃ r, validate input = Normal r
    ∧ values r = JObject ∅
    ∧ shown r "tickets" = Some "Expected number, received string".
Proof.
  intros Hget. exists (summary input). split; [apply validate_summary|].
  split.
  - apply summary_ill_formed. unfold well_formed. rewrite Hget.
    by rewrite !andb_false_r.
  - rewrite shown_field by by apply (bool_decide_unpack (_ ∈ _)).
    by rewrite Hget.
Qed.




Lemma insert_accepted_iff input k v :
  k ∈ fields → well_formed input = true →
  (∃ record, validate (<[k := v]> input)
             = Normal {| values := JObject record; errors := ∅ |})
  ↔ rule k v = true.
Proof.
  intros Hk Hwf. split.
  - intros [record Hr]. destruct (rule k v) eqn:Hv; [done|].
    destruct (insert_rejected input k v Hk Hv) as (r & Hr' & _ & Hne & _).
    rewrite Hr in Hr'. injection Hr' as <-. done.
  - intros Hv. eexists. by apply insert_accepted.
Qed.

(** X7.  The form offers exactly what the schema accepts: with the other
    fields valid, a payment is accepted if and only if it is one of the
    radio buttons of line 141, and a seat if and only if it is one of the
    options of lines 162-164. *)
Theorem offered_options_are_the_accepted_ones input s :
  well_formed input = true →
  ((∃ record, validate (<["payment" := JStr s]> input)
              = Normal {| values := JObject record; errors := ∅ |})
   ↔ s ∈ payment_options)
  ∧ ((∃ record, validate (<["seat" := JStr s]> input)
                = Normal {| values := JObject record; errors := ∅ |})
     ↔ s ∈ seat_options).
Proof.
  intros Hwf.
  split; (rewrite insert_accepted_iff;
          [|by apply (bool_decide_unpack (_ ∈ _))|done]).
  - change (rule "payment" (JStr s)) with (rule_payment (JStr s)).
    unfold rule_payment, payment_options. apply bool_decide_eq_true.
  - change (rule "seat" (JStr s)) with (rule_seat (JStr s)).
    unfold rule_seat, seat_options. apply bool_decide_eq_true.
Qed.

(** X8.  The form renders no message for specialRequests (lines 169-176):
    when that field alone is at fault, validation fails with an entry
    under specialRequests, and every message the form renders is empty. *)
Theorem specialRequests_fails_silently input :
  (∀ k, k ∈ message_slots → rule k (Js.get input k) = true) →
  rule_specialRequests (Js.get input "specialRequests") = false →
  ∃ r, validate input = Normal r
    ∧ values r = JObject ∅
    ∧ is_Some (errors r !! "specialRequests")
    ∧ Forall (λ m, m = None) (rendered (errors r)).
Proof.
  intros Hslots Hspecial. exists (summary input).
  split; [apply validate_summary|]. split.
  { apply summary_ill_formed. unfold well_formed. by rewrite Hspecial, andb_false_r. }
  split.
  { rewrite errors_lookup, decide_True, field_issues_table
      by by apply (bool_decide_unpack (_ ∈ _)).
    destruct (expected_issues "specialRequests" _) eqn:Hi; [|by eexists].
    apply expected_issues_rule in Hi; [|by apply (bool_decide_unpack (_ ∈ _))].
    change (rule "specialRequests") with rule_specialRequests in Hi. congruence. }
  unfold rendered. apply Forall_map, Forall_forall. intros k Hk. simpl.
  assert (k ∈ fields) as Hf.
  { revert Hk. unfold message_slots. rewrite !elem_of_cons, elem_of_nil.
    intros [->|[->|[->|[->|[->|[->|[->|[->|[]]]]]]]]];
      by apply (bool_decide_unpack (_ ∈ _)). }
  rewrite errors_lookup, decide_True, field_issues_table by done.
  by rewrite (proj2 (expected_issues_rule k _ Hf) (Hslots k Hk)).
Qed.

(** ** The date pickers and the default values *)

(** X9.  What a change of a picker stores is accepted exactly when the
    picker handed in a valid date: with the other fields valid, a valid
    pick is accepted and kept at its time value, an invalid one is
    reported as "Invalid date", and a cleared picker, which stores
    [null], as "Expected date, received null". *)
Theorem picker_change_then_validate input key value :
  well_formed input = true →
  key ∈ ["date"; "time"] →
  match value with
  | Some picked =>
      if dayjs.isValid picked then
        validate (<[key := picker_onChange value]> input)
        = Normal {| values :=
                      JObject (<[key := JDate (dayjs.d picked)]> (strip input));
                    errors := ∅ |}
      else
        ∃ r, validate (<[key := picker_onChange value]> input) = Normal r
          ∧ values r = JObject ∅
          ∧ shown r key = Some "Invalid date"
  | None =>
      ∃ r, validate (<[key := picker_onChange value]> input) = Normal r
        ∧ values r = JObject ∅
        ∧ shown r key = Some "Expected date, received null"
  end.
Proof.
  intros Hwf Hkey.
  assert (k_field : key ∈ fields).
  { revert Hkey. rewrite !elem_of_cons, elem_of_nil.
    intros [->|[->|[]]]; by apply (bool_decide_unpack (_ ∈ _)). }
  destruct value as [[[ms|]]|]; simpl.
  - apply insert_accepted; [done..|].
    revert Hkey. rewrite !elem_of_cons, elem_of_nil. by intros [->|[->|[]]].
  - destruct (insert_rejected input key (JDate None)) as (r & Hr & Hv & _ & Hs);
      [done| |].
    { revert Hkey. rewrite !elem_of_cons, elem_of_nil. by intros [->|[->|[]]]. }
    exists r. split; [done|]. split; [done|]. rewrite Hs.
    revert Hkey. rewrite !elem_of_cons, elem_of_nil. by intros [->|[->|[]]].
  - destruct (insert_rejected input key JNull) as (r & Hr & Hv & _ & Hs);
      [done| |].
    { revert Hkey. rewrite !elem_of_cons, elem_of_nil. by intros [->|[->|[]]]. }
    exists r. split; [done|]. split; [done|]. rewrite Hs.
    revert Hkey. rewrite !elem_of_cons, elem_of_nil. by intros [->|[->|[]]].
Qed.

(** X10.  From the picker to the field and back (lines 100 and 99): the
    [dayjs(field.value)] shown after a change is the date that was
    picked; after the picker is cleared it is an invalid date, not an
    empty picker. *)
Theorem picker_change_then_display now value :
  ∃ config,
    dayjs.config (picker_onChange value) = Some config
    ∧ dayjs.create now config = default {| dayjs.d := None |} value
    ∧ dayjs.isValid (dayjs.create now config)
      = from_option dayjs.isValid false value.
Proof.
  destruct value as [[time]|]; simpl; eexists; by split.
Qed.

(** X11.  The default values are valid ones (lines 29-33): whatever the
    clock reads, a submission that supplies the other fields within their
    rules and leaves tickets, date and time at their defaults is
    accepted. *)
Theorem defaults_complete_a_valid_entry now1 now2 entries :
  rule_name (Js.get entries "name") = true →
  rule_email (Js.get entries "email") = true →
  rule_phone (Js.get entries "phone") = true →
  rule_payment (Js.get entries "payment") = true →
  rule_seat (Js.get entries "seat") = true →
  rule_specialRequests (Js.get entries "specialRequests") = true →
  entries !! "tickets" = None →
  entries !! "date" = None →
  entries !! "time" = None →
  ∃ record,
    validate (entries ∪ defaultValues now1 now2)
    = Normal {| values := JObject record; errors := ∅ |}
    ∧ record !! "tickets" = Some (JNum (Js.of_Z 1))
    ∧ record !! "date" = Some (JDate (Some now1))
    ∧ record !! "time" = Some (JDate (Some now2)).
Proof.
  intros Hname Hemail Hphone Hpayment Hseat Hspecial Htickets Hdate Htime.
  exists (strip (entries ∪ defaultValues now1 now2)).
  assert (∀ k, k ∉ ["tickets"; "date"; "time"] →
            Js.get (entries ∪ defaultValues now1 now2) k = Js.get entries k)
    as Hother.
  { intros k Hk. unfold Js.get. rewrite lookup_union.
    assert (defaultValues now1 now2 !! k = None) as ->.
    { unfold defaultValues. apply not_elem_of_list_to_map_1. simpl. done. }
    by destruct (entries !! k). }
  assert (∀ k v, defaultValues now1 now2 !! k = Some v → entries !! k = None →
            (entries ∪ defaultValues now1 now2) !! k = Some v) as Hdef.
  { intros k v Hk Hnone. by rewrite lookup_union, Hk, Hnone. }
  split.
  - rewrite validate_summary, summary_well_formed; [done|].
    unfold well_formed.
    rewrite (Hother "name"), (Hother "email"), (Hother "phone"),
      (Hother "payment"), (Hother "seat"), (Hother "specialRequests")
      by by apply (bool_decide_unpack (_ ∉ _)).
    rewrite Hname, Hemail, Hphone, Hpayment, Hseat, Hspecial.
    unfold Js.get.
    rewrite (Hdef "tickets" (JNum (Js.of_Z 1))) by done.
    rewrite (Hdef "date" (JDate (Some now1))) by done.
    by rewrite (Hdef "time" (JDate (Some now2))) by done.
  - rewrite !strip_lookup.
    rewrite !decide_True by by apply (bool_decide_unpack (_ ∈ _)).
    by rewrite (Hdef "tickets" (JNum (Js.of_Z 1))),
      (Hdef "date" (JDate (Some now1))), (Hdef "time" (JDate (Some now2))).
Qed.

(** ** Submitting *)

Lemma isEmptyObject_summary input :
  isEmptyObject (errors (summary input)) = well_formed input.
Proof.
  unfold isEmptyObject. destruct (well_formed input) eqn:Hwf.
  - by rewrite summary_well_formed.
  - destruct (summary_ill_formed input Hwf) as [_ Hne].
    apply Nat.eqb_neq. by rewrite map_size_empty_iff.
Qed.

Lemma handleSubmit_onSubmit input page :
  page_schema page = None ∨ page_schema page = Some fields →
  handleSubmit onSubmit input page
  = (Normal (),
     {| page_schema := Some fields;
        formState_errors := errors (summary input);
        console :=
          console page
          ++ (if well_formed input
              then [[JStr "Form Data:"; JObject (strip input)]]
              else []) |}).
Proof.
  intros Hcache. unfold handleSubmit.
  rewrite resolver_summary, isEmptyObject_summary by done.
  destruct (well_formed input) eqn:Hwf.
  - by rewrite summary_well_formed.
  - by rewrite app_nil_r.
Qed.

Lemma submitted_from history page :
  page_schema page = None ∨ page_schema page = Some fields →
  (page_schema (submitted history page) = None
   ∨ page_schema (submitted history page) = Some fields)
  ∧ console (submitted history page)
    = console page
      ++ map (λ input, [JStr "Form Data:"; JObject (strip input)])
           (filter (λ input, well_formed input = true) history).
Proof.
  revert page. induction history as [|input history IH]; intros page Hcache.
  - simpl. by rewrite app_nil_r.
  - simpl. rewrite handleSubmit_onSubmit by done. simpl.
    destruct (IH {| page_schema := Some fields;
                    formState_errors := errors (summary input);
                    console := console page
                      ++ (if well_formed input
                          then [[JStr "Form Data:"; JObject (strip input)]]
                          else []) |}) as [Hc ->]; [by right|].
    split; [done|]. simpl. rewrite filter_cons.
    destruct (well_formed input) eqn:Hwf.
    + rewrite decide_True by done. simpl. by rewrite <- app_assoc.
    + rewrite decide_False by congruence. by rewrite app_nil_r.
Qed.

(** X12.  Only validated bookings reach [onSubmit]: after any run of
    submits the console holds, in order, one "Form Data:" line for each
    submission that satisfied every rule, carrying its record, and
    nothing for the others. *)
Theorem console_holds_the_accepted_bookings
    (history : list (gmap string JsVal)) :
  console (submitted history mounted)
  = map (λ input, [JStr "Form Data:"; JObject (strip input)])
      (filter (λ input, well_formed input = true) history).
Proof.
  by destruct (submitted_from history mounted (or_introl eq_refl)) as [_ ->].
Qed.

(** X13.  The errors of the form state are those of the last submit and
    of nothing before it: a submit that is accepted leaves none behind,
    whatever the earlier ones reported. *)
Theorem errors_are_those_of_the_last_submit
    (history : list (gmap string JsVal)) input :
  ∃ r, validate input = Normal r
    ∧ formState_errors (submitted (history ++ [input]) mounted) = errors r
    ∧ (well_formed input = true →
       formState_errors (submitted (history ++ [input]) mounted) = ∅).
Proof.
  exists (summary input). split; [apply validate_summary|].
  assert (∀ page, submitted (history ++ [input]) page
                  = (handleSubmit onSubmit input (submitted history page)).2)
    as ->.
  { induction history as [|i h IH]; intros page; [done|]. simpl. apply IH. }
  destruct (submitted_from history mounted (or_introl eq_refl)) as [Hc _].
  rewrite handleSubmit_onSubmit by done. simpl.
  split; [done|]. intros Hwf. by rewrite summary_well_formed.
Qed.

End Validation.

(** ** The matcher decides the language of a pattern *)

Lemma append_cons c s1 s2 : String c s1 +:+ s2 = String c (s1 +:+ s2).
Proof. done. Qed.

Lemma append_nil_l s : "" +:+ s = s.
Proof. done. Qed.

Lemma append_nil_r s : s +:+ "" = s.
Proof.
  induction s as [|c s IH]; [done|]. by rewrite append_cons, IH.
Qed.

Lemma append_assoc s1 s2 s3 : (s1 +:+ s2) +:+ s3 = s1 +:+ (s2 +:+ s3).
Proof.
  induction s1 as [|c s1 IH]; [done|]. by rewrite !append_cons, IH.
Qed.

Lemma append_eq_nil s1 s2 : s1 +:+ s2 = "" → s1 = "" ∧ s2 = "".
Proof. destruct s1; [done|discriminate]. Qed.

Lemma append_eq_cons s1 s2 c s :
  s1 +:+ s2 = String c s →
  (s1 = "" ∧ s2 = String c s) ∨ (∃ s1', s1 = String c s1' ∧ s = s1' +:+ s2).
Proof.
  destruct s1 as [|c1 s1]; [by left|]. rewrite append_cons.
  intros [= -> <-]. right. by exists s1.
Qed.

Lemma nullable_matches r : RegExp.nullable r = true ↔ RegExp.matches r "".
Proof.
  induction r as [| |p|r1 IH1 r2 IH2|r1 IH1 r2 IH2|r IH|r1 IH1 r2 IH2|r IH];
    simpl.
  - split; [discriminate|done].
  - done.
  - split; [discriminate|]. by intros (c & ? & _).
  - rewrite andb_true_iff, IH1, IH2. split.
    + intros [H1 H2]. by exists "", "".
    + intros (s1 & s2 & Hs & H1 & H2).
      symmetry in Hs. apply append_eq_nil in Hs as [-> ->]. done.
  - by rewrite orb_true_iff, IH1, IH2.
  - split; [|done]. intros _. by exists [].
  - by rewrite andb_true_iff, IH1, IH2.
  - rewrite negb_true_iff, <- not_true_iff_false, IH. done.
Qed.

Lemma matches_Star_cons r s1 s2 :
  RegExp.matches r s1 → RegExp.matches (RegExp.Star r) s2 →
  RegExp.matches (RegExp.Star r) (s1 +:+ s2).
Proof.
  intros H1 (parts & -> & Hparts). exists (s1 :: parts). split; [done|].
  by constructor.
Qed.

Lemma matches_Star_uncons r c s :
  RegExp.matches (RegExp.Star r) (String c s) →
  ∃ s1 s2, s = s1 +:+ s2 ∧ RegExp.matches r (String c s1)
           ∧ RegExp.matches (RegExp.Star r) s2.
Proof.
  intros (parts & Hs & Hparts).
  induction Hparts as [|part parts Hpart Hparts IH]; simpl in Hs;
    [discriminate|].
  symmetry in Hs. apply append_eq_cons in Hs as [[-> Hs]|(s1 & -> & ->)].
  - apply IH. done.
  - exists s1, (foldr String.append "" parts). split; [done|].
    split; [done|]. by exists parts.
Qed.

Lemma derivative_matches c r s :
  RegExp.matches (RegExp.derivative c r) s ↔ RegExp.matches r (String c s).
Proof.
  revert s.
  induction r as [| |p|r1 IH1 r2 IH2|r1 IH1 r2 IH2|r IH|r1 IH1 r2 IH2|r IH];
    intros s; simpl.
  - done.
  - split; [done|discriminate].
  - destruct (p c) eqn:Hp; simpl.
    + split.
      * intros ->. by exists c.
      * intros (c' & [= <- ->] & _). done.
    + split; [done|]. intros (c' & [= <- ->] & Hp'). congruence.
  - assert (Hseq : (∃ s1 s2, s = s1 +:+ s2
                      ∧ RegExp.matches (RegExp.derivative c r1) s1
                      ∧ RegExp.matches r2 s2)
                   ↔ ∃ s1 s2, String c s = String c s1 +:+ s2
                      ∧ RegExp.matches r1 (String c s1)
                      ∧ RegExp.matches r2 s2).
    { split; intros (s1 & s2 & Hs & H1 & H2); exists s1, s2.
      - subst s. by rewrite <- IH1.
      - rewrite append_cons in Hs. injection Hs as ->. by rewrite IH1. }
    assert (Hall : (∃ s1 s2, String c s = s1 +:+ s2
                      ∧ RegExp.matches r1 s1 ∧ RegExp.matches r2 s2)
                   ↔ (RegExp.matches r1 "" ∧ RegExp.matches r2 (String c s))
                     ∨ ∃ s1 s2, String c s = String c s1 +:+ s2
                        ∧ RegExp.matches r1 (String c s1)
                        ∧ RegExp.matches r2 s2).
    { split.
      - intros (s1 & s2 & Hs & H1 & H2). symmetry in Hs.
        apply append_eq_cons in Hs as [[-> ->]|(s1' & -> & ->)].
        + by left.
        + right. by exists s1', s2.
      - intros [[H1 H2]|(s1 & s2 & Hs & H1 & H2)].
        + by exists "", (String c s).
        + by exists (String c s1), s2. }
    rewrite Hall, <- Hseq, <- nullable_matches, <- IH2.
    destruct (RegExp.nullable r1); simpl; [|]; split.
    + intros [H|H]; [by right|by left].
    + intros [[_ H]|H]; [by right|by left].
    + intros H. by right.
    + intros [[? _]|H]; [discriminate|done].
  - by rewrite IH1, IH2.
  - split.
    + intros (s1 & s2 & -> & H1 & H2). apply IH in H1.
      apply (matches_Star_cons r (String c s1) s2 H1 H2).
    + intros H. apply matches_Star_uncons in H as (s1 & s2 & -> & H1 & H2).
      exists s1, s2. by rewrite IH.
  - by rewrite IH1, IH2.
  - by rewrite IH.
Qed.

Lemma test_matches r s : RegExp.test r s = true ↔ RegExp.matches r s.
Proof.
  revert r. induction s as [|c s IH]; intros r; simpl.
  - apply nullable_matches.
  - by rewrite IH, derivative_matches.
Qed.

(** ** The addresses the pattern of zod 3.23 accepts *)

Lemma join_split sep s : Js.join (String sep "") (Js.split sep s) = s.
Proof.
  induction s as [|c s IH]; [done|]. simpl.
  destruct (Ascii.eqb_spec c sep) as [->|Hc].
  - destruct (Js.split sep s) as [|part parts] eqn:Hparts.
    + by destruct s; simpl in Hparts; repeat case_match.
    + change (Js.join (String sep "") ("" :: part :: parts))
        with ("" +:+ String sep "" +:+ Js.join (String sep "") (part :: parts)).
      by rewrite IH.
  - destruct (Js.split sep s) as [|part parts]; [by destruct s|].
    destruct parts as [|part' parts]; simpl in *; [by rewrite IH|].
    rewrite append_cons. by rewrite IH.
Qed.

Lemma matches_Star_chars r (p : ascii → bool) s :
  (∀ c, p c = true → RegExp.matches r (String c "")) →
  every p s = true → RegExp.matches (RegExp.Star r) s.
Proof.
  intros Hr. unfold every. induction s as [|c s IH]; simpl.
  - intros _. by exists [].
  - rewrite andb_true_iff. intros [Hc Hs].
    apply (matches_Star_cons r (String c "") s); auto.
Qed.

Lemma no_two_dots_app s1 s2 :
  no_two_dots (s1 +:+ String "." (String "." s2)) = false.
Proof.
  induction s1 as [|c s1 IH]; [done|]. rewrite append_cons. simpl.
  rewrite IH. apply andb_false_r.
Qed.

Lemma matches_Seq r1 r2 s1 s2 :
  RegExp.matches r1 s1 → RegExp.matches r2 s2 →
  RegExp.matches (RegExp.Seq r1 r2) (s1 +:+ s2).
Proof. intros H1 H2. by exists s1, s2. Qed.

Lemma matches_Star_nil r : RegExp.matches (RegExp.Star r) "".
Proof. by exists []. Qed.

Lemma matches_chr a : RegExp.matches (RegExp.chr a) (String a "").
Proof. exists a. by rewrite Ascii.eqb_refl. Qed.

Lemma matches_letter c :
  is_letter c = true → RegExp.matches re_letter (String c "").
Proof.
  unfold is_letter. rewrite orb_true_iff.
  intros [H|H]; [left|right]; by exists c.
Qed.

Lemma matches_alnum c :
  is_alnum c = true → RegExp.matches re_alnum (String c "").
Proof.
  unfold is_alnum. rewrite orb_true_iff. intros [H|H].
  - left. by apply matches_letter.
  - right. by exists c.
Qed.

Lemma matches_local_char c :
  is_alnum c || one_of "_'+-." c = true →
  RegExp.matches re_local_char (String c "").
Proof.
  rewrite orb_true_iff. intros [H|H]; [left; by apply matches_alnum|].
  right. unfold one_of in H. simpl in H.
  rewrite !orb_true_iff, !Ascii.eqb_eq in H.
  destruct H as [->|[->|[->|[->|[->|H]]]]]; [..|done]; simpl;
    eauto 10 using matches_chr.
Qed.

Lemma matches_local_last c :
  is_alnum c || one_of "_+-" c = true →
  RegExp.matches re_local_last (String c "").
Proof.
  rewrite orb_true_iff. intros [H|H]; [left; by apply matches_alnum|].
  right. unfold one_of in H. simpl in H.
  rewrite !orb_true_iff, !Ascii.eqb_eq in H.
  destruct H as [->|[->|[->|H]]]; [..|done]; simpl;
    eauto 10 using matches_chr.
Qed.

Lemma matches_label_char c :
  is_alnum c || Ascii.eqb c "-" = true →
  RegExp.matches re_label_char (String c "").
Proof.
  rewrite orb_true_iff, Ascii.eqb_eq.
  intros [H| ->]; [left; by apply matches_alnum|right; apply matches_chr].
Qed.

Lemma matches_local s :
  local_part s = true →
  ∃ init last, s = init +:+ last
    ∧ RegExp.matches (RegExp.Star re_local_char) init
    ∧ RegExp.matches re_local_last last.
Proof.
  induction s as [|c s IH]; [done|].
  destruct s as [|c' s].
  - intros H. exists "", (String c ""). split; [done|].
    split; [apply matches_Star_nil|by apply matches_local_last].
  - change (local_part (String c (String c' s)))
      with ((is_alnum c || one_of "_'+-." c) && local_part (String c' s)).
    rewrite andb_true_iff. intros [Hc Hs].
    destruct (IH Hs) as (s1 & s2 & Heq & H1 & H2).
    exists (String c s1), s2. rewrite append_cons, <- Heq. split; [done|].
    split; [|done].
    apply (matches_Star_cons _ (String c "") s1); [|done].
    by apply matches_local_char.
Qed.

Lemma matches_label s :
  domain_label s = true → RegExp.matches re_label (s +:+ ".").
Proof.
  destruct s as [|c s]; [done|]. unfold domain_label, re_label.
  rewrite andb_true_iff. intros [Hc Hs].
  apply (matches_Seq _ _ (String c "") (s +:+ "."));
    [by apply matches_alnum|].
  apply matches_Seq; [|apply matches_chr].
  apply (matches_Star_chars _ (λ c, is_alnum c || Ascii.eqb c "-"));
    [apply matches_label_char|done].
Qed.

Lemma matches_top s :
  top_level s = true → RegExp.matches (RegExp.at_least 2 re_letter) s.
Proof.
  unfold top_level. rewrite andb_true_iff. intros [Hlen Hs].
  destruct s as [|c1 [|c2 s]]; [done..|]. unfold every in Hs. simpl in Hs.
  rewrite !andb_true_iff in Hs. destruct Hs as (H1 & H2 & Hs).
  unfold RegExp.at_least, RegExp.times.
  apply (matches_Seq _ _ (String c1 (String c2 "")) s).
  - apply (matches_Seq _ _ (String c1 "") (String c2 ""));
      [by apply matches_letter|].
    apply (matches_Seq _ _ (String c2 "") ""); [by apply matches_letter|done].
  - apply (matches_Star_chars _ is_letter); [apply matches_letter|done].
Qed.

Lemma matches_domain parts :
  labels parts = true → RegExp.matches re_domain (Js.join "." parts).
Proof.
  induction parts as [|label parts IH]; [done|].
  destruct parts as [|top parts]; [done|].
  destruct parts as [|part parts].
  - unfold labels, re_domain, RegExp.plus. rewrite andb_true_iff.
    intros [Hlabel Htop].
    change (Js.join "." [label; top]) with (label +:+ "." +:+ top).
    rewrite <- append_assoc. apply matches_Seq; [|by apply matches_top].
    rewrite <- (append_nil_r (label +:+ ".")).
    apply matches_Seq; [by apply matches_label|apply matches_Star_nil].
  - change (labels (label :: top :: part :: parts))
      with (domain_label label && labels (top :: part :: parts)).
    rewrite andb_true_iff. intros [Hlabel Hrest].
    destruct (IH Hrest) as (s1 & s2 & Heq & Hplus & Htop).
    change (Js.join "." (label :: top :: part :: parts))
      with (label +:+ "." +:+ Js.join "." (top :: part :: parts)).
    unfold re_domain, RegExp.plus.
    rewrite Heq, <- !append_assoc. apply matches_Seq; [|done].
    rewrite append_assoc.
    rewrite <- (append_assoc label "." s1).
    apply matches_Seq; [by apply matches_label|].
    destruct Hplus as (l1 & rest & -> & Hl1 & Hstar).
    by apply matches_Star_cons.
Qed.

(** Every address of the narrow syntax passes the pattern of zod 3.23. *)
Lemma narrow_address_accepted s :
  narrow_address s = true → emailRegex_3_23 s = true.
Proof.
  unfold narrow_address. rewrite !andb_true_iff, negb_true_iff.
  intros [[Hdot Hdots] Hparts].
  pose proof (join_split "@" s) as Hs.
  destruct (Js.split "@" s) as [|local [|domain [|]]]; [done..| |done].
  rewrite andb_true_iff in Hparts. destruct Hparts as [Hlocal Hdomain].
  apply matches_domain in Hdomain. rewrite join_split in Hdomain.
  apply matches_local in Hlocal as (init & last & -> & Hinit & Hlast).
  simpl in Hs.
  unfold emailRegex_3_23. cbv zeta. apply test_matches.
  split; [|split].
  - intros (s1 & s2 & Heq & (c & -> & Hc) & _).
    apply Ascii.eqb_eq in Hc as <-. rewrite Heq in Hdot. done.
  - intros (s1 & s2 & Heq & _ & (s3 & s4 & -> & Htwo & _)).
    destruct Htwo as (d1 & d2 & -> & (c1 & -> & Hc1) & (c2 & -> & Hc2)).
    apply Ascii.eqb_eq in Hc1 as <-, Hc2 as <-.
    rewrite Heq in Hdots.
    change ((String "." "" +:+ String "." "") +:+ s4)
      with (String "." (String "." s4)) in Hdots.
    by rewrite no_two_dots_app in Hdots.
  - rewrite <- Hs, append_assoc.
    apply (matches_Seq (RegExp.Star re_local_char)); [done|].
    apply (matches_Seq re_local_last); [done|].
    apply (matches_Seq (RegExp.chr "@") re_domain); [apply matches_chr|done].
Qed.

(** ** The pattern accepts no other address *)

Lemma chars_append s1 s2 :
  String.list_ascii_of_string (s1 +:+ s2)
  = String.list_ascii_of_string s1 ++ String.list_ascii_of_string s2.
Proof.
  induction s1 as [|c s1 IH]; [done|]. rewrite append_cons. simpl.
  by rewrite IH.
Qed.

Lemma every_append p s1 s2 :
  every p (s1 +:+ s2) = every p s1 && every p s2.
Proof. unfold every. by rewrite chars_append, forallb_app. Qed.

Lemma every_impl (p q : ascii → bool) s :
  (∀ c, p c = true → q c = true) → every p s = true → every q s = true.
Proof.
  intros Hpq. unfold every. rewrite !forallb_forall. auto.
Qed.

Lemma split_lacks sep s : every (differs sep) s = true → Js.split sep s = [s].
Proof.
  induction s as [|c s IH]; [done|]. unfold every, differs. simpl.
  rewrite andb_true_iff, negb_true_iff. intros [-> Hs].
  by rewrite (IH Hs).
Qed.

Lemma split_append sep s1 s2 :
  every (differs sep) s1 = true →
  Js.split sep (s1 +:+ String sep s2) = s1 :: Js.split sep s2.
Proof.
  induction s1 as [|c s1 IH].
  - intros _. rewrite append_nil_l. simpl. by rewrite Ascii.eqb_refl.
  - unfold every, differs. simpl. rewrite andb_true_iff, negb_true_iff.
    intros [Hc Hs]. by rewrite Hc, (IH Hs).
Qed.

Lemma matches_Star_every r (p : ascii → bool) s :
  (∀ x, RegExp.matches r x → ∃ c, x = String c "" ∧ p c = true) →
  RegExp.matches (RegExp.Star r) s → every p s = true.
Proof.
  intros Hr (parts & -> & Hparts).
  induction Hparts as [|part parts Hpart _ IH]; [done|]. simpl.
  rewrite every_append, IH, andb_true_r.
  destruct (Hr part Hpart) as (c & -> & Hc). unfold every. simpl.
  by rewrite Hc.
Qed.

Lemma letter_matches x :
  RegExp.matches re_letter x → ∃ c, x = String c "" ∧ is_letter c = true.
Proof.
  intros [(c & -> & H)|(c & -> & H)]; exists c; (split; [done|]);
    unfold is_letter; apply orb_true_iff; [by left|by right].
Qed.

Lemma alnum_matches x :
  RegExp.matches re_alnum x → ∃ c, x = String c "" ∧ is_alnum c = true.
Proof.
  intros [(c & -> & H)%letter_matches|(c & -> & H)]; exists c;
    (split; [done|]); unfold is_alnum; apply orb_true_iff; [by left|by right].
Qed.

Lemma chr_matches a x : RegExp.matches (RegExp.chr a) x → x = String a "".
Proof. by intros (c & -> & <-%Ascii.eqb_eq). Qed.

Lemma local_char_matches x :
  RegExp.matches re_local_char x →
  ∃ c, x = String c "" ∧ is_alnum c || one_of "_'+-." c = true.
Proof.
  intros [(c & -> & H)%alnum_matches|H].
  - exists c. by rewrite H.
  - assert (∃ c, x = String c "" ∧ one_of "_'+-." c = true) as (c & -> & Hc).
    { destruct H as [H|[H|[H|[H|H]]]];
        apply chr_matches in H as ->; by eexists. }
    exists c. by rewrite Hc, orb_true_r.
Qed.

Lemma local_last_matches x :
  RegExp.matches re_local_last x →
  ∃ c, x = String c "" ∧ is_alnum c || one_of "_+-" c = true.
Proof.
  intros [(c & -> & H)%alnum_matches|H].
  - exists c. by rewrite H.
  - assert (∃ c, x = String c "" ∧ one_of "_+-" c = true) as (c & -> & Hc).
    { destruct H as [H|[H|H]];
        apply chr_matches in H as ->; by eexists. }
    exists c. by rewrite Hc, orb_true_r.
Qed.

Lemma label_char_matches x :
  RegExp.matches re_label_char x →
  ∃ c, x = String c "" ∧ is_alnum c || Ascii.eqb c "-" = true.
Proof.
  intros [(c & -> & H)%alnum_matches| ->%chr_matches].
  - exists c. by rewrite H.
  - by eexists.
Qed.

Lemma local_part_append init c :
  every (λ c, is_alnum c || one_of "_'+-." c) init = true →
  is_alnum c || one_of "_+-" c = true →
  local_part (init +:+ String c "") = true.
Proof.
  intros Hinit Hc. induction init as [|c' init IH]; [done|].
  unfold every in Hinit. simpl in Hinit.
  apply andb_true_iff in Hinit as [Hc' Hinit].
  rewrite append_cons. specialize (IH Hinit).
  destruct (init +:+ String c "") eqn:Heq; [done|].
  change ((is_alnum c' || one_of "_'+-." c') && local_part (String a s)
          = true).
  by rewrite Hc', IH.
Qed.

Lemma label_matches x :
  RegExp.matches re_label x → ∃ l, x = l +:+ "." ∧ domain_label l = true.
Proof.
  intros (x1 & x2 & -> & (c & -> & Hc)%alnum_matches
          & (x3 & x4 & -> & Hstar & ->%chr_matches)).
  exists (String c x3). split; [done|]. unfold domain_label. rewrite Hc.
  apply (matches_Star_every _ _ _ label_char_matches Hstar).
Qed.

Lemma top_matches x :
  RegExp.matches (RegExp.at_least 2 re_letter) x → top_level x = true.
Proof.
  intros (x1 & x2 & -> & (y1 & y2 & -> & (c1 & -> & H1)%letter_matches
          & (y3 & y4 & -> & (c2 & -> & H2)%letter_matches & ->)) & Hstar).
  apply (matches_Star_every _ _ _ letter_matches) in Hstar.
  change ((String c1 "" +:+ String c2 "" +:+ "") +:+ x2)
    with (String c1 (String c2 x2)).
  unfold top_level, every in *. simpl. by rewrite H1, H2.
Qed.

Lemma differs_excluded (p : ascii → bool) a c :
  p a = false → p c = true → differs a c = true.
Proof.
  intros Ha Hc. unfold differs. destruct (Ascii.eqb_spec c a); [|done].
  congruence.
Qed.

Lemma every_differs (p : ascii → bool) a s :
  p a = false → every p s = true → every (differs a) s = true.
Proof. intros Ha. apply every_impl. intros c. by apply differs_excluded. Qed.

Lemma any_matches (p : ascii → bool) s :
  p "010"%char = false → p "013"%char = false →
  every p s = true → RegExp.matches (RegExp.Star RegExp.dot) s.
Proof.
  intros Hlf Hcr Hs. apply (matches_Star_chars _ p); [|done].
  intros c Hc. exists c. split; [done|].
  rewrite negb_orb.
  change (differs "010" c && differs "013" c = true).
  by rewrite (differs_excluded p "010" c), (differs_excluded p "013" c).
Qed.

Lemma split_join sep parts :
  parts ≠ [] →
  Forall (λ part, every (differs sep) part = true) parts →
  Js.split sep (Js.join (String sep "") parts) = parts.
Proof.
  intros Hne Hparts. induction Hparts as [|part parts Hpart Hparts IH]; [done|].
  destruct parts as [|part' parts]; [by apply split_lacks|].
  change (Js.join (String sep "") (part :: part' :: parts))
    with (part +:+ String sep (Js.join (String sep "") (part' :: parts))).
  by rewrite split_append, IH.
Qed.

Lemma domain_label_every s :
  domain_label s = true →
  every (λ c, is_alnum c || Ascii.eqb c "-") s = true.
Proof.
  destruct s as [|c s]; [done|]. unfold domain_label, every. simpl.
  rewrite !andb_true_iff. intros [Hc Hs]. by rewrite Hc.
Qed.

Lemma top_level_every s :
  top_level s = true → every (λ c, is_alnum c || Ascii.eqb c "-") s = true.
Proof.
  unfold top_level. rewrite andb_true_iff. intros [_ Hs]. revert Hs.
  apply every_impl. intros c Hc. unfold is_alnum. by rewrite Hc.
Qed.

Lemma labels_every parts :
  labels parts = true →
  Forall (λ part, every (λ c, is_alnum c || Ascii.eqb c "-") part = true)
    parts.
Proof.
  induction parts as [|label parts IH]; [done|].
  destruct parts as [|top parts]; [done|].
  destruct parts as [|part parts].
  - unfold labels. rewrite andb_true_iff. intros [Hlabel Htop].
    repeat constructor; [by apply domain_label_every|by apply top_level_every].
  - change (labels (label :: top :: part :: parts))
      with (domain_label label && labels (top :: part :: parts)).
    rewrite andb_true_iff. intros [Hlabel Hrest].
    constructor; [by apply domain_label_every|by apply IH].
Qed.

Lemma join_every (p : ascii → bool) sep parts :
  p sep = true →
  Forall (λ part, every p part = true) parts →
  every p (Js.join (String sep "") parts) = true.
Proof.
  intros Hsep Hparts.
  induction Hparts as [|part parts Hpart Hparts IH]; [done|].
  destruct parts as [|part' parts]; [done|].
  change (Js.join (String sep "") (part :: part' :: parts))
    with (part +:+ String sep "" +:+ Js.join (String sep "") (part' :: parts)).
  rewrite !every_append, Hpart, IH. unfold every. simpl. by rewrite Hsep.
Qed.

Lemma domain_matches d :
  RegExp.matches re_domain d →
  ∃ parts, d = Js.join "." parts ∧ labels parts = true.
Proof.
  intros (d1 & top & -> & (x & d2 & -> & (l & -> & Hl)%label_matches
          & (xs & -> & Hxs)) & Htop%top_matches).
  revert l Hl. induction Hxs as [|x xs (l' & -> & Hl')%label_matches _ IH];
    intros l Hl.
  - exists [l; top]. split.
    + change (Js.join "." [l; top]) with (l +:+ "." +:+ top).
      simpl. by rewrite append_nil_r, append_assoc.
    + unfold labels. by rewrite Hl.
  - destruct (IH l' Hl') as (parts & Heq & Hparts).
    destruct parts as [|p1 [|p2 parts]]; [done..|].
    exists (l :: p1 :: p2 :: parts). split.
    + change (Js.join "." (l :: p1 :: p2 :: parts))
        with (l +:+ "." +:+ Js.join "." (p1 :: p2 :: parts)).
      rewrite <- Heq. simpl. by rewrite !append_assoc.
    + change (labels (l :: p1 :: p2 :: parts))
        with (domain_label l && labels (p1 :: p2 :: parts)).
      by rewrite Hl.
Qed.

Lemma no_two_dots_false s :
  no_two_dots s = false → ∃ s1 s2, s = s1 +:+ String "." (String "." s2).
Proof.
  induction s as [|c s IH]; [done|]. simpl. rewrite andb_false_iff.
  intros [H|H].
  - apply negb_false_iff, andb_true_iff in H as [->%Ascii.eqb_eq H].
    destruct s as [|c' s]; [done|]. apply Ascii.eqb_eq in H as ->.
    by exists "", s.
  - destruct (IH H) as (s1 & s2 & ->). by exists (String c s1), s2.
Qed.

(** What the pattern of zod 3.23 accepts is of the narrow syntax. *)
Lemma accepted_address_narrow s :
  emailRegex_3_23 s = true → narrow_address s = true.
Proof.
  unfold emailRegex_3_23. cbv zeta. rewrite test_matches.
  intros (Hdot & Hdots & init & s1 & -> & Hinit & last & s2 & -> & Hlast
          & at_sign & d & -> & ->%chr_matches & Hd).
  apply (matches_Star_every _ _ _ local_char_matches) in Hinit.
  apply local_last_matches in Hlast as (c & -> & Hc).
  apply (domain_matches d) in Hd as (parts & -> & Hparts).
  pose proof (labels_every parts Hparts) as Hevery.
  set (p := λ c, is_alnum c || one_of "_'+-.@" c).
  assert (Hat : every (λ c, is_alnum c || one_of "_'+-." c)
                  (init +:+ String c "") = true).
  { rewrite every_append, Hinit. unfold every. simpl. rewrite andb_true_r.
    revert Hc. unfold one_of. simpl. rewrite !orb_true_iff. tauto. }
  assert (Hlocal : every p (init +:+ String c "") = true).
  { revert Hat. apply every_impl. intros c'. unfold p, one_of. simpl.
    rewrite !orb_true_iff. tauto. }
  assert (Hdomain : every (λ c, is_alnum c || one_of "-." c)
                      (Js.join "." parts) = true).
  { apply join_every; [done|]. eapply Forall_impl; [exact Hevery|].
    intros part. apply every_impl. intros c'. unfold one_of. simpl.
    rewrite !orb_true_iff. tauto. }
  assert (Hall : every p (init +:+ String c "" +:+ "@" +:+ Js.join "." parts)
                 = true).
  { rewrite <- append_assoc, every_append, Hlocal, every_append.
    assert (every p (Js.join "." parts) = true) as ->; [|done].
    revert Hdomain. apply every_impl.
    intros c'. unfold p, one_of. simpl. rewrite !orb_true_iff. tauto. }
  unfold narrow_address. rewrite !andb_true_iff, negb_true_iff.
  split; [split|].
  - destruct (starts_with_dot _) eqn:Hstart; [|done]. destruct Hdot.
    destruct (init +:+ _) as [|c' s]; [done|].
    apply Ascii.eqb_eq in Hstart as ->.
    exists ".", s. split; [done|]. split; [apply matches_chr|].
    apply (any_matches p); [done..|].
    unfold every in *. simpl in Hall. exact Hall.
  - destruct (no_two_dots _) eqn:Hno; [done|]. destruct Hdots.
    apply no_two_dots_false in Hno as (s1 & s2 & Heq). rewrite Heq in *.
    change (String "." (String "." s2)) with (".." +:+ s2) in *.
    rewrite !every_append in Hall.
    apply andb_true_iff in Hall as [H1 [_ H2]%andb_true_iff].
    exists s1, (".." +:+ s2). split; [done|].
    split; [by apply (any_matches p)|].
    exists "..", s2. split; [done|]. split; [|by apply (any_matches p)].
    exists ".", ".". split; [done|]. split; apply matches_chr.
  - rewrite <- append_assoc.
    change ((init +:+ String c "") +:+ "@" +:+ Js.join "." parts)
      with ((init +:+ String c "") +:+ String "@" (Js.join "." parts)).
    rewrite split_append
      by by apply (every_differs (λ c, is_alnum c || one_of "_'+-." c)).
    rewrite split_lacks
      by by apply (every_differs (λ c, is_alnum c || one_of "-." c)).
    rewrite local_part_append by done.
    rewrite split_join; [done|by destruct parts|].
    eapply Forall_impl; [exact Hevery|]. intros part.
    by apply every_differs.
Qed.

(** The narrow syntax is the pattern of zod 3.23, said without one. *)
Lemma emailRegex_3_23_narrow s : emailRegex_3_23 s = narrow_address s.
Proof.
  destruct (narrow_address s) eqn:Hs; [by apply narrow_address_accepted|].
  destruct (emailRegex_3_23 s) eqn:Hre; [|done].
  apply accepted_address_narrow in Hre. congruence.
Qed.

(** ** The properties of the specification, continued *)

Lemma satisfies_rules_well_formed input :
  satisfies_rules input = true → well_formed emailRegex_3_23 input = true.
Proof.
  unfold satisfies_rules, well_formed. rewrite !andb_true_iff.
  intros [[[[[[[[? Hemail] ?] ?] ?] ?] ?] ?] ?]. repeat split; try done.
  unfold rule_email, rule_email_narrow in *.
  destruct (Js.get input "email"); try done.
  by apply narrow_address_accepted.
Qed.

(** C1, as amended.  A BookingInput whose every field satisfies its rule
    of §3, the address being of the narrow syntax of zod 3.23, is
    accepted: the resolver returns the input restricted to the nine
    fields of §3 together with an empty error map; an input of the nine
    fields alone comes back as it is. *)
Theorem valid_booking_accepted input :
  satisfies_rules input = true →
  validate emailRegex_3_23 input
  = Normal {| values := JObject (normalized input); errors := ∅ |}
  ∧ ((∀ k, is_Some (input !! k) → k ∈ booking_fields) →
     normalized input = input).
Proof.
  intros Hrules%satisfies_rules_well_formed. split.
  - by rewrite validate_summary, summary_well_formed.
  - intros Hfields. apply map_filter_id. intros k v Hk. apply Hfields.
    by eexists.
Qed.

(** ** The properties at work on the sample submissions *)

Lemma valid_booking_accepted_witness :
  satisfies_rules booking = true
  ∧ validate emailRegex_3_23 booking
    = Normal {| values := JObject (normalized booking); errors := ∅ |}
  ∧ ((∀ k, is_Some (booking !! k) → k ∈ booking_fields) →
     normalized booking = booking).
Proof.
  split; [vm_compute; reflexivity|].
  apply (valid_booking_accepted booking).
  vm_compute; reflexivity.
Defined.

(** C1, as the specification states it, fails on the sample booking
    with the address [a@b.c]: the address is RFC-shaped and every field
    satisfies its rule of §3, but the pattern wants a last label of two
    letters or more, and validation fails with an entry under email. *)
Lemma rfc_shaped_address_rejected :
  rfc_shaped "a@b.c" = true
  ∧ satisfies_spec_rules booking_from_a_short_domain = true
  ∧ ∃ r, validate emailRegex_3_23 booking_from_a_short_domain = Normal r
      ∧ values r = JObject ∅
      ∧ shown r "email" = Some "Invalid email address"
      ∧ r ≠ {| values := JObject (normalized booking_from_a_short_domain);
               errors := ∅ |}.
Proof.
  split; [vm_compute; reflexivity|]. split; [vm_compute; reflexivity|].
  eexists. split; [vm_compute; reflexivity|].
  split; [vm_compute; reflexivity|]. split; [vm_compute; reflexivity|].
  intros H. apply (f_equal (λ r, shown r "email")) in H.
  vm_compute in H. discriminate.
Qed.

(** C2, as the specification states it, fails on a submission with no
    name and a malformed address: both fields have an entry, but the one
    under name reads "Required", not the "Name is required" of §4.1. *)
Lemma rule_message_not_always_shown :
  ∃ r, validate emailRegex_3_23 booking_without_name = Normal r
    ∧ rule emailRegex_3_23 "name" (Js.get booking_without_name "name") = false
    ∧ rule emailRegex_3_23 "email" (Js.get booking_without_name "email")
      = false
    ∧ shown r "email" = Some "Invalid email address"
    ∧ shown r "name" = Some "Required"
    ∧ ¬ shows_rule_messages emailRegex_3_23 booking_without_name r.
Proof.
  eexists. split; [vm_compute; reflexivity|].
  do 4 (split; [vm_compute; reflexivity|]).
  intros H. specialize (H "name").
  vm_compute in H. by specialize (H (list_elem_of_here _ _) eq_refl).
Qed.

(** C3, as the specification states it, fails on the sample booking,
    which has no specialRequests: the record has none either, and
    reading it gives [undefined], not the empty string. *)
Lemma specialRequests_not_defaulted :
  ∃ record,
    validate emailRegex_3_23 booking
    = Normal {| values := JObject record; errors := ∅ |}
    ∧ booking !! "specialRequests" = None
    ∧ Js.get record "specialRequests" = JUndefined
    ∧ Js.get record "specialRequests" ≠ JStr "".
Proof.
  eexists. split; [vm_compute; reflexivity|].
  do 2 (split; [vm_compute; reflexivity|]). by vm_compute.
Qed.

Lemma absent_specialRequests_stays_absent_witness :
  well_formed emailRegex_3_23 booking = true
  ∧ booking !! "specialRequests" = None
  ∧ ∃ record,
      validate emailRegex_3_23 booking
      = Normal {| values := JObject record; errors := ∅ |}
      ∧ record !! "specialRequests" = None
      ∧ Js.get record "specialRequests" = JUndefined.
Proof.
  split; [vm_compute; reflexivity|]. split; [vm_compute; reflexivity|].
  apply (absent_specialRequests_stays_absent emailRegex_3_23 booking);
    vm_compute; reflexivity.
Defined.

(** C4, as the specification states it, fails on [tickets: 1.5], a number
    that is not an integer: the booking is accepted as it is. *)
Lemma fractional_tickets_accepted :
  Js.get booking_for_one_and_a_half "tickets" = JNum (Num (3 # 2))
  ∧ validate emailRegex_3_23 booking_for_one_and_a_half
    = Normal {| values := JObject booking_for_one_and_a_half; errors := ∅ |}.
Proof. split; vm_compute; reflexivity. Qed.

Lemma tickets_below_one_rejected_witness :
  Js.get (<["tickets" := JNum (Js.of_Z 0)]> booking) "tickets"
  = JNum (Js.of_Z 0)
  ∧ Js.lt (Js.of_Z 0) (Js.of_Z 1) = true
  ∧ ∃ r, validate emailRegex_3_23 (<["tickets" := JNum (Js.of_Z 0)]> booking)
         = Normal r
      ∧ values r = JObject ∅
      ∧ shown r "tickets" = Some "At least one ticket is required".
Proof.
  split; [vm_compute; reflexivity|]. split; [vm_compute; reflexivity|].
  apply (tickets_below_one_rejected emailRegex_3_23
           (<["tickets" := JNum (Js.of_Z 0)]> booking) (Js.of_Z 0));
    vm_compute; reflexivity.
Defined.

(** C5.  On [payment: "Crypto"] and [seat: "Middle"] validation fails, but
    the entries read zod's default message for an enum, not the
    "Please select ..." strings the schema hands to [z.enum]. *)
Theorem enum_message_ignored :
  ∃ r, validate emailRegex_3_23 booking_paid_in_crypto = Normal r
    ∧ values r = JObject ∅
    ∧ shown r "payment"
      = Some "Invalid enum value. Expected 'Card' | 'UPI' | 'Net Banking' | 'Wallet', received 'Crypto'"
    ∧ shown r "seat"
      = Some "Invalid enum value. Expected 'Window' | 'Aisle' | 'Center', received 'Middle'".
Proof.
  eexists. split; [vm_compute; reflexivity|].
  repeat split; vm_compute; reflexivity.
Qed.

(** C6.  On [date: null] and on a time that is an Invalid Date validation
    fails, but the entries read the messages of [z.date()], not the
    "... is required" strings the schema hands to [refine]. *)
Theorem refine_message_unreachable :
  ∃ r, validate emailRegex_3_23 booking_without_date = Normal r
    ∧ values r = JObject ∅
    ∧ shown r "date" = Some "Expected date, received null"
    ∧ shown r "time" = Some "Invalid date".
Proof.
  eexists. split; [vm_compute; reflexivity|].
  repeat split; vm_compute; reflexivity.
Qed.

Lemma no_upper_bound_on_tickets_witness :
  well_formed emailRegex_3_23 booking = true
  ∧ Js.le (Js.of_Z 1) (Js.of_Z 1000) = true
  ∧ validate emailRegex_3_23 (<["tickets" := JNum (Js.of_Z 1000)]> booking)
    = Normal {| values :=
                  JObject (<["tickets" := JNum (Js.of_Z 1000)]> (strip booking));
                errors := ∅ |}.
Proof.
  split; [vm_compute; reflexivity|]. split; [vm_compute; reflexivity|].
  apply (no_upper_bound_on_tickets emailRegex_3_23 booking (Js.of_Z 1000));
    vm_compute; reflexivity.
Defined.

Lemma whitespace_name_accepted_witness :
  well_formed emailRegex_3_23 booking = true
  ∧ whitespace_only " " = true
  ∧ ∃ record,
      validate emailRegex_3_23 (<["name" := JStr " "]> booking)
      = Normal {| values := JObject record; errors := ∅ |}
      ∧ record !! "name" = Some (JStr " ").
Proof.
  split; [vm_compute; reflexivity|]. split; [vm_compute; reflexivity|].
  apply (whitespace_name_accepted emailRegex_3_23 booking " ");
    vm_compute; reflexivity.
Defined.


(** ** The further properties at work *)

Lemma accepted_record_satisfies_rules_witness :
  validate emailRegex_3_23 booking
  = Normal {| values := JObject (strip booking); errors := ∅ |}
  ∧ well_formed emailRegex_3_23 (strip booking) = true
  ∧ (∀ k, is_Some (strip booking !! k) → k ∈ fields)
  ∧ well_formed emailRegex_3_23 booking = true.
Proof.
  split; [vm_compute; reflexivity|].
  apply (accepted_record_satisfies_rules emailRegex_3_23 booking).
  vm_compute; reflexivity.
Defined.

Lemma accepted_record_revalidates_witness :
  validate emailRegex_3_23 (<["coupon" := JStr "SAVE10"]> booking)
  = Normal {| values := JObject booking; errors := ∅ |}
  ∧ validate emailRegex_3_23 booking
    = Normal {| values := JObject booking; errors := ∅ |}.
Proof.
  split; [vm_compute; reflexivity|].
  apply (accepted_record_revalidates emailRegex_3_23
           (<["coupon" := JStr "SAVE10"]> booking)).
  vm_compute; reflexivity.
Defined.

Lemma validation_reads_only_the_fields_witness :
  (∀ k, k ∈ booking_fields →
     (<["coupon" := JStr "SAVE10"]> booking_without_name) !! k
     = booking_without_name !! k)
  ∧ thenable (<["coupon" := JStr "SAVE10"]> booking_without_name)
    = thenable booking_without_name
  ∧ validate_object emailRegex_3_23
      (<["coupon" := JStr "SAVE10"]> booking_without_name)
    = validate_object emailRegex_3_23 booking_without_name.
Proof.
  assert (∀ k, k ∈ booking_fields →
            (<["coupon" := JStr "SAVE10"]> booking_without_name) !! k
            = booking_without_name !! k) as H.
  { intros k Hk. apply lookup_insert_ne. intros <-. revert Hk.
    apply (bool_decide_unpack (_ ∉ _)). vm_compute; reflexivity. }
  split; [exact H|]. split; [vm_compute; reflexivity|].
  apply (validation_reads_only_the_fields emailRegex_3_23 _ _ H).
  vm_compute; reflexivity.
Defined.

Lemma field_entry_depends_on_field_alone_witness :
  "phone" ∈ fields
  ∧ Js.get booking "phone" = Js.get booking_without_name "phone"
  ∧ ∃ r r', validate emailRegex_3_23 booking = Normal r
      ∧ validate emailRegex_3_23 booking_without_name = Normal r'
      ∧ errors r !! "phone" = errors r' !! "phone".
Proof.
  assert ("phone" ∈ fields) as H
    by (apply (bool_decide_unpack (_ ∈ _)); vm_compute; reflexivity).
  split; [exact H|]. split; [vm_compute; reflexivity|].
  apply (field_entry_depends_on_field_alone emailRegex_3_23
           booking booking_without_name "phone" H).
  vm_compute; reflexivity.
Defined.

Lemma tickets_text_rejected_witness :
  Js.get (<["tickets" := JStr "3"]> booking) "tickets" = JStr "3"
  ∧ ∃ r, validate emailRegex_3_23 (<["tickets" := JStr "3"]> booking)
         = Normal r
      ∧ values r = JObject ∅
      ∧ shown r "tickets" = Some "Expected number, received string".
Proof.
  split; [vm_compute; reflexivity|].
  apply (tickets_text_rejected emailRegex_3_23
           (<["tickets" := JStr "3"]> booking) "3").
  vm_compute; reflexivity.
Defined.


Lemma offered_options_are_the_accepted_ones_witness :
  well_formed emailRegex_3_23 booking = true
  ∧ ((∃ record, validate emailRegex_3_23 (<["payment" := JStr "Cash"]> booking)
                = Normal {| values := JObject record; errors := ∅ |})
     ↔ "Cash" ∈ payment_options)
  ∧ ((∃ record, validate emailRegex_3_23 (<["seat" := JStr "Cash"]> booking)
                = Normal {| values := JObject record; errors := ∅ |})
     ↔ "Cash" ∈ seat_options).
Proof.
  split; [vm_compute; reflexivity|].
  apply (offered_options_are_the_accepted_ones emailRegex_3_23 booking "Cash").
  vm_compute; reflexivity.
Defined.

Lemma specialRequests_fails_silently_witness :
  let input := <["specialRequests" := JNum (Js.of_Z 42)]> booking in
  (∀ k, k ∈ message_slots →
     rule emailRegex_3_23 k (Js.get input k) = true)
  ∧ rule_specialRequests (Js.get input "specialRequests") = false
  ∧ ∃ r, validate emailRegex_3_23 input = Normal r
      ∧ values r = JObject ∅
      ∧ is_Some (errors r !! "specialRequests")
      ∧ Forall (λ m, m = None) (rendered (errors r)).
Proof.
  intros input.
  assert (∀ k, k ∈ message_slots →
            rule emailRegex_3_23 k (Js.get input k) = true) as H.
  { intros k. unfold message_slots. rewrite !elem_of_cons, elem_of_nil.
    intros [->|[->|[->|[->|[->|[->|[->|[->|[]]]]]]]]]; vm_compute; reflexivity. }
  split; [exact H|]. split; [vm_compute; reflexivity|].
  apply (specialRequests_fails_silently emailRegex_3_23 input H).
  vm_compute; reflexivity.
Defined.

Lemma picker_change_then_validate_witness :
  well_formed emailRegex_3_23 booking = true
  ∧ "date" ∈ ["date"; "time"]
  ∧ ∃ r, validate emailRegex_3_23 (<["date" := picker_onChange None]> booking)
         = Normal r
      ∧ values r = JObject ∅
      ∧ shown r "date" = Some "Expected date, received null".
Proof.
  assert ("date" ∈ ["date"; "time"]) as H
    by (apply (bool_decide_unpack (_ ∈ _)); vm_compute; reflexivity).
  split; [vm_compute; reflexivity|]. split; [exact H|].
  apply (picker_change_then_validate emailRegex_3_23 booking "date" None);
    [vm_compute; reflexivity|exact H].
Defined.

Lemma defaults_complete_a_valid_entry_witness :
  let entries : gmap string JsVal :=
    list_to_map [("name", JStr "Asha Rao"); ("email", JStr "asha@example.com");
                 ("phone", JStr "9876543210"); ("payment", JStr "Card");
                 ("seat", JStr "Aisle"); ("specialRequests", JStr "")] in
  rule_name (Js.get entries "name") = true
  ∧ rule_email emailRegex_3_23 (Js.get entries "email") = true
  ∧ rule_phone (Js.get entries "phone") = true
  ∧ rule_payment (Js.get entries "payment") = true
  ∧ rule_seat (Js.get entries "seat") = true
  ∧ rule_specialRequests (Js.get entries "specialRequests") = true
  ∧ entries !! "tickets" = None
  ∧ entries !! "date" = None
  ∧ entries !! "time" = None
  ∧ ∃ record,
      validate emailRegex_3_23
        (entries ∪ defaultValues 1735689600000 1735689600001)
      = Normal {| values := JObject record; errors := ∅ |}
      ∧ record !! "tickets" = Some (JNum (Js.of_Z 1))
      ∧ record !! "date" = Some (JDate (Some 1735689600000%Z))
      ∧ record !! "time" = Some (JDate (Some 1735689600001%Z)).
Proof.
  intros entries.
  do 9 (split; [vm_compute; reflexivity|]).
  apply (defaults_complete_a_valid_entry emailRegex_3_23
           1735689600000 1735689600001 entries);
    vm_compute; reflexivity.
Defined.
